(** * Parallel keyword search (task_01.py): model and verified properties

    The development embeds the search engine of [task_01.py]:
    the round-robin chunking of the file list, the per-chunk scanner
    [process_files_chunk], the merger [merge_results] and the orchestration
    [run_analysis] with its pool of workers publishing to a results queue.

    Conventions.
    - A Python [str] is a [string]; the order used by [sorted] is the
      lexicographic order [String.le].
    - A Python [dict] from keyword to list of files is an association list
      in insertion order with pairwise distinct keys (type [dict]).
    - Exceptions are values of [exn]; code that may raise returns [except].
    - The file system and [str.lower] are parameters of the model.
    - [run_analysis] describes the runs that end in a return or a raise,
      without the limit of the pipe under a [multiprocessing.Queue];
      [run_analysis_backend] adds that limit, which decides whether the
      joins return at all.
    - Console output and wall-clock timing are not modelled. *)

From stdpp Require Import base list strings gmap sorting pretty.
From Stdlib Require Import ZArith Lia Ascii.

Set Default Proof Using "Type".

Local Open Scope Z_scope.
Local Open Scope nat_scope.

(** ** Exceptions *)

Inductive exn : Type :=
  | ValueError (msg : string)
  | KeyError (key : string)
  | IOError (msg : string)
  | OtherException (msg : string).

Inductive except (A : Type) : Type :=
  | Return (a : A)
  | Raise (e : exn).
Arguments Return {A} a.
Arguments Raise {A} e.

Definition except_bind {A B} (m : except A) (f : A → except B) : except B :=
  match m with
  | Return a => f a
  | Raise e => Raise e
  end.

Notation "x ←! m ; k" := (except_bind m (λ x, k))
  (at level 20, m at level 100, k at level 200, right associativity,
   format "x  ←!  m ;  '/' k").

(** A list comprehension whose element expression may raise. *)
Fixpoint comprehension {A B} (f : A → except B) (xs : list A) : except (list B) :=
  match xs with
  | [] => Return []
  | x :: xs' => y ←! f x; ys ←! comprehension f xs'; Return (y :: ys)
  end.

(** A [for] loop over [xs] that mutates a state and stops at the first
    exception. The state reached so far is kept next to the pending
    exception, since mutations done before a [raise] stay visible to an
    enclosing [except] clause. *)
Fixpoint for_each {A S} (xs : list A) (body : A → S → S * option exn) (s : S)
  : S * option exn :=
  match xs with
  | [] => (s, None)
  | x :: xs' =>
      match body x s with
      | (s', None) => for_each xs' body s'
      | (s', Some e) => (s', Some e)
      end
  end.

(** ** Dictionaries *)

Definition dict : Type := list (string * list string).

Fixpoint dict_get (d : dict) (k : string) : option (list string) :=
  match d with
  | [] => None
  | (k', v) :: d' => if decide (k' = k) then Some v else dict_get d' k
  end.

(** [d[k] = v]: an existing key keeps its position, a new key goes last. *)
Fixpoint dict_set (d : dict) (k : string) (v : list string) : dict :=
  match d with
  | [] => [(k, v)]
  | (k', v') :: d' =>
      if decide (k' = k) then (k', v) :: d' else (k', v') :: dict_set d' k v
  end.

Definition dict_keys (d : dict) : list string := d.*1.

(** [{k: [] for k in keywords}] *)
Definition empty_lists (keywords : list string) : dict :=
  foldl (λ d k, dict_set d k []) [] keywords.

(** [d[k].extend(files)]; the lookup [d[k]] raises [KeyError] on a missing key. *)
Definition dict_extend (k : string) (files : list string) (d : dict)
  : dict * option exn :=
  match dict_get d k with
  | Some v => (dict_set d k (v ++ files), None)
  | None => (d, Some (KeyError k))
  end.

(** [d[k].append(file)] *)
Definition dict_append (k : string) (file : string) (d : dict) : dict * option exn :=
  dict_extend k [file] d.

(** ** Slices and chunking *)

(** [stride gap wait l] skips [wait] elements, takes one, and from then on
    takes every [(gap+1)]-th element. *)
Fixpoint stride {A} (gap wait : nat) (l : list A) : list A :=
  match l with
  | [] => []
  | x :: l' =>
      match wait with
      | O => x :: stride gap gap l'
      | S w => stride gap w l'
      end
  end.

(** [l[start::step]] for a start index [start >= 0]. *)
Definition slice_from_step {A} (l : list A) (start : nat) (step : Z) : except (list A) :=
  match step with
  | Z0 => Raise (ValueError "slice step cannot be zero")
  | Zpos p => Return (stride (Pos.to_nat p - 1) start l)
  | Zneg p => Return (stride (Pos.to_nat p - 1) 0 (rev (take (S start) l)))
  end.

(** [range(n)]: empty when [n <= 0]. *)
Definition range (n : Z) : list nat := seq 0 (Z.to_nat n).

(** [[file_list[i::num_workers] for i in range(num_workers)]] *)
Definition make_chunks {A} (file_list : list A) (num_workers : Z) : except (list (list A)) :=
  comprehension (λ i, slice_from_step file_list i num_workers) (range num_workers).

(** ** Substring test and lowercasing *)

Fixpoint prefix (p s : string) : bool :=
  match p, s with
  | EmptyString, _ => true
  | String a p', String b s' => if decide (a = b) then prefix p' s' else false
  | String _ _, EmptyString => false
  end.

(** [sub in s] on strings. *)
Fixpoint contains (sub s : string) : bool :=
  prefix sub s ||
  match s with
  | EmptyString => false
  | String _ s' => contains sub s'
  end.

(** [str.lower] restricted to ASCII letters; used to instantiate the
    [lower] parameter in the examples. *)
Definition ascii_lower_char (c : Ascii.ascii) : Ascii.ascii :=
  let n := Ascii.nat_of_ascii c in
  if (65 <=? n) && (n <=? 90) then Ascii.ascii_of_nat (n + 32) else c.

Fixpoint ascii_lower (s : string) : string :=
  match s with
  | EmptyString => EmptyString
  | String c s' => String (ascii_lower_char c) (ascii_lower s')
  end.

(** ** Merging partial results *)

(** [sorted(list(set(files)))]: the iteration order of the set is whatever
    [elements] gives; sorting makes the outcome independent of it. *)
Definition sorted_set (files : list string) : list string :=
  merge_sort String.le (elements (list_to_set files : gset string)).

(** The loop [for keyword, files in res.items()] of [merge_results]. *)
Definition extend_items (res : dict) (final_results : dict) : dict * option exn :=
  for_each res (λ '(keyword, files), dict_extend keyword files) final_results.

(** [final_results[keyword] = sorted(list(set(final_results[keyword])))] *)
Definition normalise_key (keyword : string) (final_results : dict) : dict * option exn :=
  match dict_get final_results keyword with
  | Some files => (dict_set final_results keyword (sorted_set files), None)
  | None => (final_results, Some (KeyError keyword))
  end.

Definition merge_results (partial_results : list dict) (keywords : list string)
  : except dict :=
  let final_results := empty_lists keywords in
  match for_each partial_results extend_items final_results with
  | (_, Some e) => Raise e
  | (final_results, None) =>
      match for_each (dict_keys final_results) normalise_key final_results with
      | (_, Some e) => Raise e
      | (final_results, None) => Return final_results
      end
  end.

(** The files that one partial result, and all of them together, list
    under [keyword]; the keyword lists for which the merge is defined. *)
Definition files_for (keyword : string) (res : dict) : list string :=
  res ≫= (λ kv, if decide (kv.1 = keyword) then kv.2 else []).

Definition all_files_for (keyword : string) (partial_results : list dict)
  : list string :=
  partial_results ≫= files_for keyword.

Definition keys_known (keywords : list string) (partial_results : list dict) : Prop :=
  Forall (λ res : dict, Forall (λ kv, kv.1 ∈ keywords) res) partial_results.

Global Instance keys_known_dec (keywords : list string) (partial_results : list dict) :
  Decision (keys_known keywords partial_results).
Proof. unfold keys_known. apply _. Defined.

(** The table that a successful merge computes, written without loops. *)
Definition merged_table (partial_results : list dict) (keywords : list string)
  : dict :=
  map (λ k, (k, sorted_set (all_files_for k partial_results)))
      (dict_keys (empty_lists keywords)).

(** ** Worker pool *)

Inductive worker_class : Type := Thread | Process.
Inductive queue_class : Type := ThreadQueue | ProcessQueue.

(** The [if mode == ...] cascade at the entry of [run_analysis]. *)
Definition select_backend (mode : string)
  : except (worker_class * queue_class * string) :=
  if decide (mode = "threading") then Return (Thread, ThreadQueue, "Threading")
  else if decide (mode = "multiprocessing")
       then Return (Process, ProcessQueue, "Multiprocessing")
       else Raise (ValueError ("Unknown mode: " +:+ mode)).

(** [while not results_queue.empty(): partial_results.append(results_queue.get())] *)
Fixpoint drain (results_queue partial_results : list dict) : list dict :=
  match results_queue with
  | [] => partial_results
  | res :: results_queue' => drain results_queue' (partial_results ++ [res])
  end.

(** State of the pool as seen by [run_analysis]: chunks whose worker has
    not been started yet, chunks of the workers that are running, and the
    content of the results queue (oldest entry first). *)
Record pool : Type := Pool {
  to_start : list (list string);
  running : list (list string);
  results_queue : list dict
}.

Inductive event : Type := Spawned | Published | Crashed.

Global Instance event_eq_dec : EqDecision event.
Proof. solve_decision. Defined.

(** Chunks whose worker has not terminated yet. *)
Definition pending (s : pool) : list (list string) := running s ++ to_start s.

Definition count_event (ev : event) (trace : list event) : nat :=
  length (filter (λ ev', ev' = ev) trace).

(** A sample file system for the examples: ["a.txt"], ["b.txt"] and
    ["c.txt"] are readable, ["locked.txt"] cannot be opened, ["binary.txt"] cannot be
    decoded, every other path is missing. *)
Definition sample_files (path : string) : except string :=
  if decide (path = "a.txt") then Return "Alpha and more"
  else if decide (path = "b.txt") then Return "alpha, BETA"
  else if decide (path = "c.txt") then Return "nothing of interest"
  else if decide (path = "locked.txt") then Raise (IOError "Permission denied")
  else if decide (path = "binary.txt") then Raise (OtherException "invalid start byte")
  else Raise (IOError "No such file or directory").

(** A file system in which every path can be read and holds the same
    text, a list of three thousand distinct paths, and the number of bytes
    of the strings in a partial result. A pickled result is at least that
    long when its strings are pairwise distinct (pickle writes a string
    object that occurs again as a reference). *)
Definition lorem_files (path : string) : except string :=
  Return "Lorem ipsum dolor sit amet".

Definition many_files : list string :=
  (λ i : nat, "test_files/file_" +:+ pretty i +:+ ".txt") <$> seq 0 3000.

Definition string_bytes (s : string) : N := N.of_nat (String.length s).

Definition payload_bytes (d : dict) : N :=
  foldr (λ kv bytes,
           (string_bytes kv.1 +
            foldr (λ f bytes', (string_bytes f + bytes')%N) 0%N kv.2 +
            bytes)%N)
        0%N d.

Section Engine.

(** [str.lower], and the outcome of [open(path, 'r', encoding='utf-8')]
    followed by [f.read()]: the text, or the exception raised. *)
Context (lower : string → string) (open_read : string → except string).

(** The body of the [try] block for one file. *)
Definition scan_file (keywords : list string) (file_path : string)
    (local_results : dict) : dict * option exn :=
  match open_read file_path with
  | Return text =>
      let content := lower text in
      for_each keywords
        (λ keyword local_results,
           if contains (lower keyword) content
           then dict_append keyword file_path local_results
           else (local_results, None))
        local_results
  | Raise e => (local_results, Some e)
  end.

(** The [try] statement: both [except] clauses report the error and let
    the loop over the files continue. *)
Definition try_scan_file (keywords : list string) (file_path : string)
    (local_results : dict) : dict * option exn :=
  match scan_file keywords file_path local_results with
  | (local_results, None) => (local_results, None)
  | (local_results, Some (IOError _)) => (local_results, None)
  | (local_results, Some _) => (local_results, None)
  end.

Definition process_files_chunk (file_chunk keywords : list string) : dict :=
  let local_results := empty_lists keywords in
  (for_each file_chunk (try_scan_file keywords) local_results).1.

(** What one file adds to the list of [keyword], and the table a scan of a
    chunk computes, written without loops. *)
Definition file_hits (keywords : list string) (keyword file_path : string)
  : list string :=
  match open_read file_path with
  | Return text =>
      keywords ≫= (λ k, if decide (k = keyword)
                        then if contains (lower k) (lower text)
                             then [file_path] else []
                        else [])
  | Raise _ => []
  end.

Definition scan_table (file_chunk keywords : list string) : dict :=
  map (λ k, (k, file_chunk ≫= file_hits keywords k))
      (dict_keys (empty_lists keywords)).

(** The table a search over [file_list] computes when every worker
    publishes; with [num_workers <= 0] no file is scanned at all. *)
Definition search_table (file_list keywords : list string) (num_workers : Z)
  : dict :=
  map (λ k, (k, sorted_set (if decide (0 < num_workers)%Z
                            then file_list ≫= file_hits keywords k else [])))
      (dict_keys (empty_lists keywords)).

(** Whether the scanner records [file_path] under [keyword]: the file can
    be read and the lowercased keyword occurs in its lowercased text. *)
Definition file_matches (keyword file_path : string) : bool :=
  match open_read file_path with
  | Return text => contains (lower keyword) (lower text)
  | Raise _ => false
  end.

(** Whether [open] and [read] succeed on [file_path]. *)
Definition readable (file_path : string) : bool :=
  match open_read file_path with
  | Return _ => true
  | Raise _ => false
  end.

(** [generic_worker], as a transformer of the queue content. *)
Definition generic_worker (file_chunk keywords : list string)
    (results_queue : list dict) : list dict :=
  let result := process_files_chunk file_chunk keywords in
  results_queue ++ [result].

(** One step of the pool. [run_analysis] starts the workers in the order of
    the chunks; a running worker either finishes [generic_worker], which
    publishes its result, or terminates abnormally without publishing. *)
Inductive pool_step (keywords : list string) : pool → event → pool → Prop :=
  | step_spawn chunk rest run q :
      pool_step keywords (Pool (chunk :: rest) run q) Spawned
                         (Pool rest (run ++ [chunk]) q)
  | step_publish rest pre chunk post q :
      pool_step keywords (Pool rest (pre ++ chunk :: post) q) Published
                         (Pool rest (pre ++ post) (generic_worker chunk keywords q))
  | step_crash rest pre chunk post q :
      pool_step keywords (Pool rest (pre ++ chunk :: post) q) Crashed
                         (Pool rest (pre ++ post) q).

Inductive pool_run (keywords : list string) : pool → list event → pool → Prop :=
  | run_done s : pool_run keywords s [] s
  | run_step s1 ev s2 evs s3 :
      pool_step keywords s1 ev s2 →
      pool_run keywords s2 evs s3 →
      pool_run keywords s1 (ev :: evs) s3.

(** [run_analysis file_list keywords num_workers mode trace outcome]: the
    call can unfold with the pool events [trace] and end with [outcome].
    The joins return once every worker has been started and has
    terminated; only then is the queue drained and merged. Whether a
    worker of the selected class can terminate is left open here:
    [run_analysis_backend] below adds that condition, and every run it has
    is one of these. *)
Inductive run_analysis (file_list keywords : list string) (num_workers : Z)
    (mode : string) : list event → except dict → Prop :=
  | run_unknown_mode e :
      select_backend mode = Raise e →
      run_analysis file_list keywords num_workers mode [] (Raise e)
  | run_bad_slice backend e :
      select_backend mode = Return backend →
      make_chunks file_list num_workers = Raise e →
      run_analysis file_list keywords num_workers mode [] (Raise e)
  | run_joined backend chunks trace q :
      select_backend mode = Return backend →
      make_chunks file_list num_workers = Return chunks →
      pool_run keywords (Pool chunks [] []) trace (Pool [] [] q) →
      run_analysis file_list keywords num_workers mode trace
                   (merge_results (drain q []) keywords).

(** The schedule in which all workers are started and then publish in the
    order they were started. *)
Definition in_order_trace (num_workers : Z) : list event :=
  replicate (Z.to_nat num_workers) Spawned ++
  replicate (Z.to_nat num_workers) Published.

End Engine.

Section Backend.

(** Beside [str.lower] and the file system, two facts of the platform:
    the number of bytes that the pipe under a [multiprocessing.Queue]
    holds while nobody reads from it, and the number of bytes that one
    partial result occupies in it once pickled. *)
Context (lower : string → string) (open_read : string → except string)
        (pipe_capacity : N) (message_size : dict → N).

(** Bytes in the pipe when the results [q] have been written to it. *)
Definition pipe_load (q : list dict) : N :=
  foldr (λ result load, (message_size result + load)%N) 0%N q.

(** Whether the worker that has put [result], with [q] already published,
    can terminate, so that its [join] returns. A [Thread] ends when [put]
    has returned. A [Process] exits only after the feeder thread of the
    queue has written the whole pickled result to the pipe, and
    [run_analysis] reads nothing from the queue before all the joins have
    returned: the result must fit beside what the pipe already holds. *)
Definition can_exit (queue : queue_class) (q : list dict) (result : dict) : Prop :=
  match queue with
  | ThreadQueue => True
  | ProcessQueue => (pipe_load q + message_size result ≤ pipe_capacity)%N
  end.

(** One step of the pool under the selected queue class: [pool_step] with
    the condition under which a publishing worker terminates. *)
Inductive backend_step (queue : queue_class) (keywords : list string)
  : pool → event → pool → Prop :=
  | backend_spawn chunk rest run q :
      backend_step queue keywords (Pool (chunk :: rest) run q) Spawned
                   (Pool rest (run ++ [chunk]) q)
  | backend_publish rest pre chunk post q :
      can_exit queue q (process_files_chunk lower open_read chunk keywords) →
      backend_step queue keywords (Pool rest (pre ++ chunk :: post) q) Published
                   (Pool rest (pre ++ post)
                         (generic_worker lower open_read chunk keywords q))
  | backend_crash rest pre chunk post q :
      backend_step queue keywords (Pool rest (pre ++ chunk :: post) q) Crashed
                   (Pool rest (pre ++ post) q).

Inductive backend_run (queue : queue_class) (keywords : list string)
  : pool → list event → pool → Prop :=
  | backend_done s : backend_run queue keywords s [] s
  | backend_next s1 ev s2 evs s3 :
      backend_step queue keywords s1 ev s2 →
      backend_run queue keywords s2 evs s3 →
      backend_run queue keywords s1 (ev :: evs) s3.

(** [run_analysis] with the classes selected by [mode] taken into account:
    the call returns or raises only along a run in which every worker that
    was started has terminated. A call in which some [Process] can never
    exit has no outcome: it blocks in [worker.join()]. *)
Inductive run_analysis_backend (file_list keywords : list string)
    (num_workers : Z) (mode : string) : list event → except dict → Prop :=
  | backend_unknown_mode e :
      select_backend mode = Raise e →
      run_analysis_backend file_list keywords num_workers mode [] (Raise e)
  | backend_bad_slice classes e :
      select_backend mode = Return classes →
      make_chunks file_list num_workers = Raise e →
      run_analysis_backend file_list keywords num_workers mode [] (Raise e)
  | backend_joined WorkerClass QueueClass mode_name chunks trace q :
      select_backend mode = Return (WorkerClass, QueueClass, mode_name) →
      make_chunks file_list num_workers = Return chunks →
      backend_run QueueClass keywords (Pool chunks [] []) trace (Pool [] [] q) →
      run_analysis_backend file_list keywords num_workers mode trace
                           (merge_results (drain q []) keywords).

End Backend.

(** ** Chunking lemmas *)

Lemma stride_lookup {A} (gap : nat) (l : list A) :
  ∀ wait p, stride gap wait l !! p = l !! (wait + p * S gap).
Proof.
  induction l as [|x l IH]; intros wait p; simpl.
  - by rewrite !lookup_nil.
  - destruct wait as [|w].
    + destruct p as [|p]; simpl; [done|]. apply IH.
    + simpl. apply IH.
Qed.

Lemma stride_nil {A} (gap wait : nat) : stride gap wait (@nil A) = [].
Proof. done. Qed.

Lemma stride_short {A} (gap wait : nat) (l : list A) :
  length l ≤ wait → stride gap wait l = [].
Proof.
  revert wait. induction l as [|x l IH]; intros wait Hlen; simpl in *; [done|].
  destruct wait as [|w]; [lia|]. apply IH. lia.
Qed.

Lemma concat_strides {A} (gap : nat) (l : list A) :
  concat (map (λ w, stride gap w l) (seq 0 (S gap))) ≡ₚ l.
Proof.
  induction l as [|x l IH].
  - induction (seq 0 (S gap)) as [|w ws IHw]; simpl; [done|apply IHw].
  - change (seq 0 (S gap)) with (0 :: seq 1 gap). rewrite <- seq_shift.
    rewrite map_cons, map_map. simpl. constructor.
    etrans; [|exact IH]. rewrite seq_S. simpl.
    rewrite map_app, concat_app. simpl. rewrite app_nil_r.
    apply Permutation_app_comm.
Qed.

Lemma comprehension_total {A B} (f : A → except B) (g : A → B) (xs : list A) :
  (∀ x, x ∈ xs → f x = Return (g x)) → comprehension f xs = Return (map g xs).
Proof.
  induction xs as [|x xs IH]; intros Hf; simpl; [done|].
  rewrite Hf by left. simpl. rewrite IH; [done|].
  intros y Hy. apply Hf. by right.
Qed.

Lemma make_chunks_pos {A} (file_list : list A) (num_workers : Z) :
  (0 < num_workers)%Z →
  make_chunks file_list num_workers =
    Return (map (λ i, stride (Z.to_nat num_workers - 1) i file_list)
                (seq 0 (Z.to_nat num_workers))).
Proof.
  intros Hpos. unfold make_chunks, range. apply comprehension_total.
  intros i _. destruct num_workers as [|n|n]; try lia. simpl.
  by rewrite Z2Nat.inj_pos.
Qed.

Lemma make_chunks_nonpos {A} (file_list : list A) (num_workers : Z) :
  (num_workers ≤ 0)%Z → make_chunks file_list num_workers = Return [].
Proof.
  intros Hn. unfold make_chunks, range.
  replace (Z.to_nat num_workers) with 0 by lia. done.
Qed.

Lemma strides_lookup {A} (n : nat) (l : list A) (j : nat) (c : list A) :
  map (λ i, stride (n - 1) i l) (seq 0 n) !! j = Some c →
  j < n ∧ c = stride (n - 1) j l.
Proof.
  rewrite list_lookup_fmap. intros Hj.
  destruct (seq 0 n !! j) as [i|] eqn:Hi; simplify_eq/=.
  apply lookup_seq in Hi as [-> ?]. done.
Qed.

Lemma strides_lookup_lt {A} (n : nat) (l : list A) (j : nat) :
  j < n →
  map (λ i, stride (n - 1) i l) (seq 0 n) !! j = Some (stride (n - 1) j l).
Proof.
  intros Hj. rewrite list_lookup_fmap, lookup_seq_lt by done. done.
Qed.

Lemma stride_lookup_pos {A} (n : nat) (l : list A) (j p : nat) :
  0 < n → stride (n - 1) j l !! p = l !! (j + p * n).
Proof.
  intros Hn. rewrite stride_lookup. by replace (S (n - 1)) with n by lia.
Qed.

(** C4. Chunking is round-robin: for [num_workers > 0] there are exactly
    [num_workers] chunks, the file at index [i] sits in chunk
    [i mod num_workers] (at position [i / num_workers]), position [p] of
    chunk [j] holds the file of index [j + p * num_workers] (so each chunk
    keeps the input order), every chunk whose number is at least the list
    length is empty, and an empty list gives [num_workers] empty chunks. *)
Theorem chunks_round_robin (file_list : list string) (num_workers : Z) :
  (0 < num_workers)%Z →
  ∃ chunks,
    make_chunks file_list num_workers = Return chunks ∧
    length chunks = Z.to_nat num_workers ∧
    (∀ i f, file_list !! i = Some f →
       ∃ c, chunks !! (i mod Z.to_nat num_workers) = Some c ∧
            c !! (i / Z.to_nat num_workers) = Some f) ∧
    (∀ j c p f, chunks !! j = Some c → c !! p = Some f →
       j < Z.to_nat num_workers ∧
       file_list !! (j + p * Z.to_nat num_workers) = Some f) ∧
    (∀ j, length file_list ≤ j < Z.to_nat num_workers → chunks !! j = Some []) ∧
    (file_list = [] → chunks = replicate (Z.to_nat num_workers) []).
Proof.
  intros Hpos. eexists. split; [by apply make_chunks_pos|].
  set (n := Z.to_nat num_workers). assert (0 < n) as Hn by lia.
  split; [by rewrite length_map, length_seq|].
  split; [|split; [|split]].
  - intros i f Hi. exists (stride (n - 1) (i mod n) file_list). split.
    + apply strides_lookup_lt. apply Nat.mod_upper_bound. lia.
    + rewrite stride_lookup_pos by done.
      replace (i mod n + i / n * n) with i; [done|].
      rewrite (Nat.div_mod_eq i n) at 1. lia.
  - intros j c p f Hj Hp. apply strides_lookup in Hj as [Hlt ->].
    split; [done|]. by rewrite <- stride_lookup_pos.
  - intros j [Hlen Hj]. rewrite strides_lookup_lt by done.
    f_equal. by apply stride_short.
  - intros ->.
    assert (∀ ws : list nat,
      map (λ i, stride (n - 1) i (@nil string)) ws = replicate (length ws) [])
      as Hnil.
    { intros ws. induction ws as [|i ws IH]; [done|]. simpl. f_equal. exact IH. }
    by rewrite Hnil, length_seq.
Qed.

(** C3. Chunking is a partition: for [num_workers > 0] the chunks taken
    together are a rearrangement of the file list (every occurrence of a
    file lands in exactly one chunk and nothing else appears), a file is in
    some chunk exactly when it is in the list, and when the list has no
    repeated file no file is in two different chunks. *)
Theorem chunks_partition (file_list : list string) (num_workers : Z) :
  (0 < num_workers)%Z →
  ∃ chunks,
    make_chunks file_list num_workers = Return chunks ∧
    concat chunks ≡ₚ file_list ∧
    (∀ f, f ∈ file_list ↔ ∃ c, c ∈ chunks ∧ f ∈ c) ∧
    (NoDup file_list →
       ∀ j1 j2 c1 c2 f,
         chunks !! j1 = Some c1 → chunks !! j2 = Some c2 →
         f ∈ c1 → f ∈ c2 → j1 = j2).
Proof.
  intros Hpos. eexists. split; [by apply make_chunks_pos|].
  set (n := Z.to_nat num_workers). assert (0 < n) as Hn by lia.
  assert (concat (map (λ i, stride (n - 1) i file_list) (seq 0 n)) ≡ₚ file_list)
    as Hperm.
  { pose proof (concat_strides (n - 1) file_list) as Hc.
    by replace (S (n - 1)) with n in Hc by lia. }
  split; [done|]. split.
  - intros f. rewrite <- Hperm, !list_elem_of_In, in_concat.
    setoid_rewrite list_elem_of_In. done.
  - intros Hnd j1 j2 c1 c2 f Hj1 Hj2 Hf1 Hf2.
    apply strides_lookup in Hj1 as [Hlt1 ->].
    apply strides_lookup in Hj2 as [Hlt2 ->].
    apply list_elem_of_lookup in Hf1 as [p1 Hp1].
    apply list_elem_of_lookup in Hf2 as [p2 Hp2].
    rewrite stride_lookup_pos in Hp1, Hp2 by done.
    pose proof (NoDup_lookup _ _ _ _ Hnd Hp1 Hp2) as Heq.
    assert ((j1 + p1 * n) mod n = (j2 + p2 * n) mod n) as Hmod by (by rewrite Heq).
    rewrite !Nat.Div0.mod_add in Hmod.
    by rewrite !Nat.mod_small in Hmod by done.
Qed.

(** ** Dictionary lemmas *)

Lemma dict_get_set (d : dict) (k k' : string) (v : list string) :
  dict_get (dict_set d k v) k' = if decide (k = k') then Some v else dict_get d k'.
Proof.
  induction d as [|[k0 v0] d IH]; simpl.
  - by repeat case_decide.
  - repeat (case_decide; simplify_eq/=); rewrite ?IH;
      repeat case_decide; congruence.
Qed.

Lemma dict_get_is_Some (d : dict) (k : string) :
  is_Some (dict_get d k) ↔ k ∈ dict_keys d.
Proof.
  unfold dict_keys. induction d as [|[k0 v0] d IH]; simpl.
  - split; [by intros [? ?]|]. intros H. by apply elem_of_nil in H.
  - rewrite elem_of_cons. destruct (decide (k0 = k)) as [->|Hne].
    + split; eauto.
    + rewrite IH. naive_solver.
Qed.

Lemma dict_get_None (d : dict) (k : string) :
  dict_get d k = None ↔ k ∉ dict_keys d.
Proof. by rewrite eq_None_not_Some, dict_get_is_Some. Qed.

Lemma dict_keys_set (d : dict) (k : string) (v : list string) :
  dict_keys (dict_set d k v) =
    if decide (k ∈ dict_keys d) then dict_keys d else dict_keys d ++ [k].
Proof.
  induction d as [|[k0 v0] d IH]; [done|].
  change (dict_keys ((k0, v0) :: d)) with (k0 :: dict_keys d).
  cbn [dict_set]. destruct (decide (k0 = k)) as [->|Hne].
  - rewrite decide_True by left. done.
  - change (dict_keys ((k0, v0) :: dict_set d k v))
      with (k0 :: dict_keys (dict_set d k v)).
    rewrite IH. repeat case_decide; try done; exfalso; set_solver.
Qed.

Lemma dict_keys_set_known (d : dict) (k : string) (v : list string) :
  k ∈ dict_keys d → dict_keys (dict_set d k v) = dict_keys d.
Proof. intros Hk. by rewrite dict_keys_set, decide_True. Qed.

Lemma dict_set_NoDup (d : dict) (k : string) (v : list string) :
  NoDup (dict_keys d) → NoDup (dict_keys (dict_set d k v)).
Proof.
  intros Hnd. rewrite dict_keys_set. case_decide; [done|].
  apply NoDup_app. split_and!; [done| |apply NoDup_singleton].
  intros x Hx ->%list_elem_of_singleton. done.
Qed.

(** A dictionary is determined by its keys and its lookups. *)
Lemma dict_tabulate (d : dict) (f : string → list string) :
  NoDup (dict_keys d) →
  (∀ k, k ∈ dict_keys d → dict_get d k = Some (f k)) →
  d = map (λ k, (k, f k)) (dict_keys d).
Proof.
  unfold dict_keys. induction d as [|[k0 v0] d IH]; simpl; [done|].
  intros [Hk0 Hnd]%NoDup_cons Hget. f_equal.
  - specialize (Hget k0). rewrite decide_True in Hget by done.
    f_equal. apply (inj Some). apply Hget. by left.
  - apply IH; [done|]. intros k Hk. specialize (Hget k).
    rewrite decide_False in Hget by (by intros ->). apply Hget. by right.
Qed.

Lemma empty_lists_from (keywords : list string) (d : dict) :
  NoDup (dict_keys d) →
  let d' := foldl (λ d k, dict_set d k []) d keywords in
  NoDup (dict_keys d') ∧
  (∀ k, k ∈ dict_keys d' ↔ k ∈ dict_keys d ∨ k ∈ keywords) ∧
  (∀ k, dict_get d' k = if decide (k ∈ keywords) then Some [] else dict_get d k).
Proof.
  revert d. induction keywords as [|k0 keywords IH]; intros d Hnd; cbn [foldl].
  - split_and!; [done|set_solver|]. intros k. rewrite decide_False; [done|].
    apply not_elem_of_nil.
  - destruct (IH (dict_set d k0 [])) as (Hnd' & Hkeys & Hget).
    { by apply dict_set_NoDup. }
    split_and!; [done| |].
    + intros k. rewrite Hkeys, dict_keys_set. case_decide; set_solver.
    + intros k. rewrite Hget, dict_get_set.
      repeat case_decide; try done; set_solver.
Qed.

Lemma empty_lists_NoDup (keywords : list string) :
  NoDup (dict_keys (empty_lists keywords)).
Proof. apply (empty_lists_from keywords []). constructor. Qed.

Lemma empty_lists_keys (keywords : list string) (k : string) :
  k ∈ dict_keys (empty_lists keywords) ↔ k ∈ keywords.
Proof.
  destruct (empty_lists_from keywords []) as (_ & Hkeys & _); [constructor|].
  unfold empty_lists. rewrite Hkeys. set_solver.
Qed.

Lemma empty_lists_get (keywords : list string) (k : string) :
  dict_get (empty_lists keywords) k = if decide (k ∈ keywords) then Some [] else None.
Proof.
  destruct (empty_lists_from keywords []) as (_ & _ & Hget); [constructor|].
  apply Hget.
Qed.

(** ** The two loops of [merge_results] *)

Lemma files_for_cons (k k0 : string) (files : list string) (res : dict) :
  files_for k ((k0, files) :: res) =
    (if decide (k0 = k) then files else []) ++ files_for k res.
Proof. done. Qed.

Lemma extend_items_spec (res : dict) :
  ∀ d d' o, extend_items res d = (d', o) →
    dict_keys d' = dict_keys d ∧
    match o with
    | None =>
        Forall (λ kv, kv.1 ∈ dict_keys d) res ∧
        ∀ k, dict_get d' k = (λ v, v ++ files_for k res) <$> dict_get d k
    | Some e => ∃ k, e = KeyError k ∧ k ∈ res.*1 ∧ k ∉ dict_keys d
    end.
Proof.
  unfold extend_items. induction res as [|[k0 f0] res IH]; intros d d' o Hrun.
  - injection Hrun as <- <-. split; [done|]. split; [constructor|].
    intros k. destruct (dict_get d k); simpl; [|done]. by rewrite app_nil_r.
  - cbn [for_each] in Hrun. unfold dict_extend in Hrun at 1.
    destruct (dict_get d k0) as [v|] eqn:Hget.
    + assert (k0 ∈ dict_keys d) as Hk0 by (apply dict_get_is_Some; eauto).
      apply IH in Hrun as [Hkeys Ho].
      rewrite dict_keys_set_known in Hkeys, Ho by done.
      split; [done|]. destruct o as [e|].
      * destruct Ho as (k & -> & Hk & Hnk). exists k. split_and!; [done| |done].
        rewrite fmap_cons. by right.
      * destruct Ho as [Hall Hlook]. split; [by constructor|].
        intros k. rewrite Hlook, dict_get_set, files_for_cons.
        case_decide; simplify_eq/=.
        -- rewrite Hget. simpl. by rewrite app_assoc.
        -- done.
    + injection Hrun as <- <-. split; [done|].
      exists k0. split_and!; [done|by left|]. by apply dict_get_None.
Qed.

Lemma extend_all_spec (partial_results : list dict) :
  ∀ d d' o, for_each partial_results extend_items d = (d', o) →
    dict_keys d' = dict_keys d ∧
    match o with
    | None =>
        Forall (λ res : dict, Forall (λ kv, kv.1 ∈ dict_keys d) res)
               partial_results ∧
        ∀ k, dict_get d' k =
             (λ v, v ++ all_files_for k partial_results) <$> dict_get d k
    | Some e =>
        ∃ k res, e = KeyError k ∧ res ∈ partial_results ∧
                 k ∈ res.*1 ∧ k ∉ dict_keys d
    end.
Proof.
  induction partial_results as [|res partials IH]; intros d d' o Hrun.
  - injection Hrun as <- <-. split; [done|]. split; [constructor|].
    intros k. destruct (dict_get d k); simpl; [|done]. by rewrite app_nil_r.
  - cbn [for_each] in Hrun.
    destruct (extend_items res d) as [d1 [e|]] eqn:Hres.
    + injection Hrun as <- <-.
      apply extend_items_spec in Hres as [Hkeys (k & -> & Hk & Hnk)].
      split; [done|]. exists k, res. split_and!; [done|by left|done|done].
    + apply extend_items_spec in Hres as [Hkeys1 [Hall1 Hlook1]].
      apply IH in Hrun as [Hkeys Ho]. rewrite Hkeys1 in Hkeys, Ho.
      split; [done|]. destruct o as [e|].
      * destruct Ho as (k & res' & -> & Hin & Hk & Hnk).
        exists k, res'. split_and!; [done|by right|done|done].
      * destruct Ho as [Hall Hlook]. split; [by constructor|].
        intros k. rewrite Hlook, Hlook1. unfold all_files_for.
        rewrite bind_cons. destruct (dict_get d k); simpl; [|done].
        by rewrite app_assoc.
Qed.

Lemma normalise_keys_spec (keys : list string) :
  ∀ d, NoDup keys → (∀ k, k ∈ keys → k ∈ dict_keys d) →
    ∃ d', for_each keys normalise_key d = (d', None) ∧
          dict_keys d' = dict_keys d ∧
          ∀ k, dict_get d' k =
               (if decide (k ∈ keys) then sorted_set else id) <$> dict_get d k.
Proof.
  induction keys as [|k0 keys IH]; intros d Hnd Hin.
  - exists d. split_and!; [done..|]. intros k.
    rewrite decide_False by apply not_elem_of_nil. by destruct (dict_get d k).
  - apply NoDup_cons in Hnd as [Hk0 Hnd].
    assert (k0 ∈ dict_keys d) as Hk0d by (apply Hin; by left).
    destruct (proj2 (dict_get_is_Some d k0) Hk0d) as [v Hv].
    cbn [for_each]. unfold normalise_key at 1. rewrite Hv.
    destruct (IH (dict_set d k0 (sorted_set v))) as (d' & Hrun & Hkeys & Hlook).
    { done. }
    { intros k Hk. rewrite dict_keys_set_known by done. apply Hin. by right. }
    exists d'. rewrite dict_keys_set_known in Hkeys by done.
    split_and!; [done..|]. intros k. rewrite Hlook, dict_get_set.
    destruct (decide (k0 = k)) as [->|Hne].
    + rewrite decide_False by done. rewrite decide_True by left.
      by rewrite Hv.
    + destruct (decide (k ∈ keys)).
      * rewrite decide_True by (by right). done.
      * rewrite decide_False; [done|]. intros [?|?]%elem_of_cons; congruence.
Qed.

Lemma merge_results_Return (partial_results : list dict) (keywords : list string) :
  keys_known keywords partial_results →
  merge_results partial_results keywords =
    Return (merged_table partial_results keywords).
Proof.
  intros Hknown. unfold merge_results.
  destruct (for_each partial_results extend_items (empty_lists keywords))
    as [d1 o] eqn:Hrun.
  apply extend_all_spec in Hrun as [Hkeys Ho]. destruct o as [e|].
  { destruct Ho as (k & res & -> & Hres & Hk & Hnk). exfalso. apply Hnk.
    apply empty_lists_keys. unfold keys_known in Hknown.
    rewrite Forall_forall in Hknown. specialize (Hknown res Hres).
    rewrite Forall_forall in Hknown.
    apply list_elem_of_fmap in Hk as (kv & -> & Hkv). by apply Hknown. }
  destruct Ho as [_ Hlook].
  destruct (normalise_keys_spec (dict_keys d1) d1) as (d2 & -> & Hkeys2 & Hlook2).
  { rewrite Hkeys. apply empty_lists_NoDup. }
  { done. }
  f_equal. unfold merged_table. rewrite <- Hkeys, <- Hkeys2.
  apply dict_tabulate.
  - rewrite Hkeys2, Hkeys. apply empty_lists_NoDup.
  - intros k Hk. rewrite Hkeys2 in Hk. rewrite Hlook2, decide_True by done.
    rewrite Hlook, empty_lists_get, decide_True; [done|].
    apply empty_lists_keys. by rewrite <- Hkeys.
Qed.

Lemma merge_results_Raise (partial_results : list dict) (keywords : list string) :
  ¬ keys_known keywords partial_results →
  ∃ k res, merge_results partial_results keywords = Raise (KeyError k) ∧
           res ∈ partial_results ∧ k ∈ res.*1 ∧ k ∉ keywords.
Proof.
  intros Hunknown. unfold merge_results.
  destruct (for_each partial_results extend_items (empty_lists keywords))
    as [d1 o] eqn:Hrun.
  apply extend_all_spec in Hrun as [Hkeys Ho]. destruct o as [e|].
  - destruct Ho as (k & res & -> & Hres & Hk & Hnk). exists k, res.
    split_and!; [done..|]. by rewrite <- empty_lists_keys.
  - destruct Ho as [Hall _]. exfalso. apply Hunknown. unfold keys_known.
    eapply Forall_impl; [exact Hall|]. intros res Hres.
    eapply Forall_impl; [exact Hres|]. intros kv Hkv.
    by apply empty_lists_keys.
Qed.

(** ** [sorted(list(set(...)))] *)

Lemma elem_of_sorted_set (x : string) (files : list string) :
  x ∈ sorted_set files ↔ x ∈ files.
Proof.
  unfold sorted_set. rewrite merge_sort_Permutation, elem_of_elements.
  apply elem_of_list_to_set.
Qed.

Lemma sorted_set_NoDup (files : list string) : NoDup (sorted_set files).
Proof.
  unfold sorted_set. rewrite merge_sort_Permutation. apply NoDup_elements.
Qed.

Lemma sorted_set_sorted (files : list string) :
  StronglySorted String.le (sorted_set files).
Proof. apply StronglySorted_merge_sort; apply _. Qed.

Lemma sorted_set_ext (l1 l2 : list string) :
  (∀ x, x ∈ l1 ↔ x ∈ l2) → sorted_set l1 = sorted_set l2.
Proof.
  intros Hext. unfold sorted_set. f_equal. f_equal.
  apply set_eq. intros x. by rewrite !elem_of_list_to_set.
Qed.

Lemma sorted_set_nil_inv (files : list string) :
  files = [] → sorted_set files = [].
Proof.
  intros ->. destruct (sorted_set []) as [|x l] eqn:Hs; [done|].
  assert (x ∈ sorted_set []) as Hx by (rewrite Hs; left).
  apply elem_of_sorted_set in Hx. by apply elem_of_nil in Hx.
Qed.

(** ** The merged table *)

Lemma dict_get_tabulate (f : string → list string) (keys : list string) (k : string) :
  dict_get (map (λ k, (k, f k)) keys) k =
    if decide (k ∈ keys) then Some (f k) else None.
Proof.
  induction keys as [|k0 keys IH]; cbn [map dict_get].
  - by rewrite decide_False by apply not_elem_of_nil.
  - destruct (decide (k0 = k)) as [->|Hne].
    + by rewrite decide_True by left.
    + rewrite IH. destruct (decide (k ∈ keys)).
      * by rewrite decide_True by (by right).
      * rewrite decide_False; [done|]. intros [?|?]%elem_of_cons; congruence.
Qed.

Lemma dict_keys_tabulate (f : string → list string) (keys : list string) :
  dict_keys (map (λ k, (k, f k)) keys) = keys.
Proof.
  unfold dict_keys. induction keys as [|k0 keys IH]; [done|].
  cbn [map fmap list_fmap]. f_equal. exact IH.
Qed.

Lemma merged_table_keys (partial_results : list dict) (keywords : list string) :
  dict_keys (merged_table partial_results keywords) =
    dict_keys (empty_lists keywords).
Proof. apply dict_keys_tabulate. Qed.

Lemma merged_table_get (partial_results : list dict) (keywords : list string)
    (k : string) :
  dict_get (merged_table partial_results keywords) k =
    if decide (k ∈ keywords)
    then Some (sorted_set (all_files_for k partial_results)) else None.
Proof.
  unfold merged_table. rewrite dict_get_tabulate.
  destruct (decide (k ∈ keywords)) as [Hk|Hk].
  - by rewrite decide_True by (by apply empty_lists_keys).
  - by rewrite decide_False by (by rewrite empty_lists_keys).
Qed.

Lemma merge_results_inv (partial_results : list dict) (keywords : list string)
    (r : dict) :
  merge_results partial_results keywords = Return r →
  keys_known keywords partial_results ∧ r = merged_table partial_results keywords.
Proof.
  intros Hr. destruct (decide (keys_known keywords partial_results)) as [Hk|Hk].
  - rewrite merge_results_Return in Hr by done. by simplify_eq.
  - apply merge_results_Raise in Hk as (k & res & Hraise & _). congruence.
Qed.

Lemma all_files_for_Permutation (k : string) (ps1 ps2 : list dict) :
  ps1 ≡ₚ ps2 → all_files_for k ps1 ≡ₚ all_files_for k ps2.
Proof. intros Hp. unfold all_files_for. by rewrite Hp. Qed.

Lemma merged_table_Permutation (ps1 ps2 : list dict) (keywords : list string) :
  ps1 ≡ₚ ps2 → merged_table ps1 keywords = merged_table ps2 keywords.
Proof.
  intros Hp. unfold merged_table. apply map_ext. intros k. f_equal.
  apply sorted_set_ext. intros x. by rewrite (all_files_for_Permutation k _ _ Hp).
Qed.

Lemma keys_known_Permutation (keywords : list string) (ps1 ps2 : list dict) :
  ps1 ≡ₚ ps2 → keys_known keywords ps1 → keys_known keywords ps2.
Proof. intros Hp. unfold keys_known. by rewrite Hp. Qed.

(** C2. Whenever [merge_results] returns a mapping, its keys are exactly
    the keywords, each once; every keyword is a key, and its file list has
    no duplicates, is sorted in ascending string order, holds exactly the
    files that some partial result lists under that keyword, and is empty
    when no partial result lists any. *)
Theorem merge_results_complete_sorted (partial_results : list dict)
    (keywords : list string) (r : dict) :
  merge_results partial_results keywords = Return r →
  NoDup (dict_keys r) ∧
  (∀ k, k ∈ dict_keys r ↔ k ∈ keywords) ∧
  ∀ k, k ∈ keywords →
    ∃ files, dict_get r k = Some files ∧
             NoDup files ∧
             StronglySorted String.le files ∧
             (∀ f, f ∈ files ↔ f ∈ all_files_for k partial_results) ∧
             (all_files_for k partial_results = [] → files = []).
Proof.
  intros [_ ->]%merge_results_inv. rewrite merged_table_keys.
  split; [apply empty_lists_NoDup|]. split; [apply empty_lists_keys|].
  intros k Hk. exists (sorted_set (all_files_for k partial_results)).
  rewrite merged_table_get, decide_True by done.
  split_and!; [done|apply sorted_set_NoDup|apply sorted_set_sorted| |].
  - intros f. apply elem_of_sorted_set.
  - apply sorted_set_nil_inv.
Qed.

(** C7. [merge_results] does not depend on the order of the partial
    results: on two sequences that are permutations of each other it
    returns the same mapping (and it returns for one exactly when it
    returns for the other). *)
Theorem merge_results_order_independent (ps1 ps2 : list dict)
    (keywords : list string) :
  ps1 ≡ₚ ps2 →
  ∀ r, merge_results ps1 keywords = Return r ↔
       merge_results ps2 keywords = Return r.
Proof.
  assert (∀ qs1 qs2 r, qs1 ≡ₚ qs2 →
    merge_results qs1 keywords = Return r →
    merge_results qs2 keywords = Return r) as Hdir.
  { intros qs1 qs2 r Hp [Hk ->]%merge_results_inv.
    rewrite merge_results_Return by (by eapply keys_known_Permutation).
    f_equal. symmetry. by apply merged_table_Permutation. }
  intros Hp r. split; apply Hdir; [done|by symmetry].
Qed.

(** C10. [merge_results] returns a mapping exactly when every key of every
    partial result is one of the keywords. Any exception it raises is a
    [KeyError] for a key of some partial result that is not a keyword, and
    a partial result with such a key always makes it raise one. *)
Theorem merge_results_key_error (partial_results : list dict)
    (keywords : list string) :
  (keys_known keywords partial_results ↔
     ∃ r, merge_results partial_results keywords = Return r) ∧
  (∀ e, merge_results partial_results keywords = Raise e →
     ∃ k res, e = KeyError k ∧ res ∈ partial_results ∧
              k ∈ res.*1 ∧ k ∉ keywords) ∧
  (∀ res k, res ∈ partial_results → k ∈ res.*1 → k ∉ keywords →
     ∃ k', merge_results partial_results keywords = Raise (KeyError k') ∧
           k' ∉ keywords).
Proof.
  split_and!.
  - split.
    + intros Hk. eexists. by apply merge_results_Return.
    + intros [r Hr]. by apply merge_results_inv in Hr as [? _].
  - intros e He.
    destruct (decide (keys_known keywords partial_results)) as [Hk|Hk].
    + rewrite merge_results_Return in He by done. done.
    + apply merge_results_Raise in Hk as (k & res & Hraise & Hres & Hin & Hnk).
      exists k, res. split_and!; [congruence|done..].
  - intros res k Hres Hk Hnk.
    destruct (merge_results_Raise partial_results keywords)
      as (k' & res' & Hraise & _ & _ & Hnk'); [|by exists k'].
    unfold keys_known. rewrite Forall_forall. intros Hall.
    specialize (Hall res Hres). rewrite Forall_forall in Hall.
    apply list_elem_of_fmap in Hk as (kv & -> & Hkv). by apply Hnk, Hall.
Qed.

(** ** Substring test *)

Lemma string_app_cons (a : Ascii.ascii) (s t : string) :
  String a s +:+ t = String a (s +:+ t).
Proof. done. Qed.

Lemma string_app_nil (t : string) : "" +:+ t = t.
Proof. done. Qed.

Lemma prefix_spec (p s : string) :
  prefix p s = true ↔ ∃ post, s = p +:+ post.
Proof.
  revert s. induction p as [|a p IH]; intros s; cbn [prefix].
  - split; [|done]. intros _. by exists s.
  - setoid_rewrite string_app_cons. destruct s as [|b s].
    + split; [done|]. by intros [post ?].
    + destruct (decide (a = b)) as [->|Hne].
      * rewrite IH. split; intros [post Hpost]; exists post; congruence.
      * split; [done|]. intros [post Hpost]. congruence.
Qed.

Lemma contains_spec (sub s : string) :
  contains sub s = true ↔ ∃ pre post, s = pre +:+ sub +:+ post.
Proof.
  induction s as [|b s IH]; cbn [contains].
  - rewrite orb_false_r, prefix_spec. split.
    + intros [post Hpost]. by exists "", post.
    + intros (pre & post & Hs). destruct pre; [|done]. by exists post.
  - rewrite orb_true_iff, prefix_spec, IH. split.
    + intros [[post Hpost]|(pre & post & Hs)].
      * by exists "", post.
      * exists (String b pre), post. rewrite string_app_cons. by rewrite Hs.
    + intros (pre & post & Hs). destruct pre as [|c pre].
      * left. by exists post.
      * right. exists pre, post. rewrite string_app_cons in Hs. congruence.
Qed.

(** ** Auxiliary facts on traces, chunks and tables *)

Lemma drain_app (q acc : list dict) : drain q acc = acc ++ q.
Proof.
  revert acc. induction q as [|res q IH]; intros acc; simpl.
  - by rewrite app_nil_r.
  - by rewrite IH, <- app_assoc.
Qed.

Lemma count_event_cons (ev ev' : event) (trace : list event) :
  count_event ev (ev' :: trace) =
    (if decide (ev' = ev) then 1 else 0) + count_event ev trace.
Proof.
  unfold count_event. rewrite filter_cons. by destruct (decide (ev' = ev)).
Qed.

Lemma count_event_zero (ev : event) (trace : list event) :
  ev ∉ trace → count_event ev trace = 0.
Proof.
  induction trace as [|ev' trace IH]; intros Hnot; [done|].
  rewrite count_event_cons, IH by set_solver.
  rewrite decide_False; [done|]. intros ->. apply Hnot. by left.
Qed.

Lemma make_chunks_total {A} (file_list : list A) (num_workers : Z) :
  ∃ chunks, make_chunks file_list num_workers = Return chunks ∧
            length chunks = Z.to_nat num_workers.
Proof.
  destruct (decide (0 < num_workers)%Z) as [Hpos|Hneg].
  - eexists. split; [by apply make_chunks_pos|].
    by rewrite length_map, length_seq.
  - exists []. split; [apply make_chunks_nonpos; lia|]. simpl. lia.
Qed.

Lemma make_chunks_elem_of (file_list : list string) (num_workers : Z)
    (chunks : list (list string)) :
  make_chunks file_list num_workers = Return chunks →
  ∀ f, (∃ c, c ∈ chunks ∧ f ∈ c) ↔ (0 < num_workers)%Z ∧ f ∈ file_list.
Proof.
  intros Hchunks f. destruct (decide (0 < num_workers)%Z) as [Hpos|Hneg].
  - rewrite make_chunks_pos in Hchunks by done. injection Hchunks as <-.
    pose proof (concat_strides (Z.to_nat num_workers - 1) file_list) as Hc.
    replace (S (Z.to_nat num_workers - 1)) with (Z.to_nat num_workers)
      in Hc by lia.
    assert (f ∈ file_list ↔
            f ∈ concat (map (λ w, stride (Z.to_nat num_workers - 1) w file_list)
                            (seq 0 (Z.to_nat num_workers)))) as ->
      by (by rewrite Hc).
    rewrite list_elem_of_In, in_concat.
    setoid_rewrite list_elem_of_In. naive_solver.
  - rewrite make_chunks_nonpos in Hchunks by lia. injection Hchunks as <-.
    split; [|by intros [? _]]. by intros (c & ?%elem_of_nil & _).
Qed.

Lemma elem_of_files_for_tabulate (f : string → list string) (keys : list string)
    (k x : string) :
  x ∈ files_for k (map (λ k', (k', f k')) keys) ↔ k ∈ keys ∧ x ∈ f k.
Proof.
  unfold files_for. rewrite list_elem_of_bind. split.
  - intros ([k' v] & Hx & Hkv). apply list_elem_of_fmap in Hkv as (k0 & Heq & Hk0).
    simplify_eq/=. destruct (decide (k0 = k)) as [->|]; [done|].
    by apply elem_of_nil in Hx.
  - intros [Hk Hx]. exists (k, f k). simpl. rewrite decide_True by done.
    split; [done|]. apply list_elem_of_fmap. by exists k.
Qed.

Lemma select_backend_known (mode : string) :
  mode = "threading" ∨ mode = "multiprocessing" ↔
  ∃ backend, select_backend mode = Return backend.
Proof.
  unfold select_backend. repeat case_decide; split; eauto.
  - by intros [?|?].
  - by intros [? ?].
Qed.

Lemma merged_table_nil (keywords : list string) :
  merged_table [] keywords = empty_lists keywords.
Proof.
  unfold merged_table.
  trans (map (λ k : string, (k, @nil string)) (dict_keys (empty_lists keywords))).
  - apply map_ext. intros k. by rewrite (sorted_set_nil_inv (all_files_for k [])).
  - symmetry. apply (dict_tabulate _ (λ _, [])).
    + apply empty_lists_NoDup.
    + intros k Hk. rewrite empty_lists_get, decide_True; [done|].
      by apply empty_lists_keys.
Qed.

Lemma in_order_trace_crash_free (num_workers : Z) :
  Crashed ∉ in_order_trace num_workers.
Proof.
  unfold in_order_trace. rewrite elem_of_app.
  intros [[? _]%elem_of_replicate|[? _]%elem_of_replicate]; done.
Qed.

Lemma dict_append_known (k file : string) (d : dict) (v : list string) :
  dict_get d k = Some v → dict_append k file d = (dict_set d k (v ++ [file]), None).
Proof. intros Hv. unfold dict_append, dict_extend. by rewrite Hv. Qed.

Section EngineCorrect.

Context (lower : string → string) (open_read : string → except string).

Local Abbreviation file_hits := (file_hits lower open_read).
Local Abbreviation scan_table := (scan_table lower open_read).
Local Abbreviation search_table := (search_table lower open_read).
Local Abbreviation scan_file := (scan_file lower open_read).
Local Abbreviation try_scan_file := (try_scan_file lower open_read).
Local Abbreviation process_files_chunk := (process_files_chunk lower open_read).
Local Abbreviation generic_worker := (generic_worker lower open_read).
Local Abbreviation pool_step := (pool_step lower open_read).
Local Abbreviation pool_run := (pool_run lower open_read).
Local Abbreviation run_analysis := (run_analysis lower open_read).

(** ** The scanner *)

Lemma scan_keywords_spec (file_path content : string) (keywords : list string) :
  ∀ d, (∀ k, k ∈ keywords → k ∈ dict_keys d) →
    ∃ d',
      for_each keywords
        (λ keyword local_results,
           if contains (lower keyword) content
           then dict_append keyword file_path local_results
           else (local_results, None)) d = (d', None) ∧
      dict_keys d' = dict_keys d ∧
      ∀ k, dict_get d' k =
           (λ v, v ++ keywords ≫=
                   (λ k', if decide (k' = k)
                          then if contains (lower k') content
                               then [file_path] else []
                          else [])) <$> dict_get d k.
Proof.
  induction keywords as [|k0 keywords IH]; intros d Hin.
  - exists d. split_and!; [done..|]. intros k.
    destruct (dict_get d k); simpl; [|done]. by rewrite app_nil_r.
  - assert (k0 ∈ dict_keys d) as Hk0 by (apply Hin; by left).
    destruct (proj2 (dict_get_is_Some d k0) Hk0) as [v Hv].
    cbn [for_each]. destruct (contains (lower k0) content) eqn:Hhit.
    + rewrite (dict_append_known _ _ _ _ Hv).
      destruct (IH (dict_set d k0 (v ++ [file_path])))
        as (d' & -> & Hkeys & Hlook).
      { intros k Hk. rewrite dict_keys_set_known by done. apply Hin. by right. }
      exists d'. rewrite dict_keys_set_known in Hkeys by done.
      split_and!; [done..|]. intros k. rewrite Hlook, dict_get_set, bind_cons.
      destruct (decide (k0 = k)) as [->|Hne].
      * rewrite Hv, Hhit. simpl. by rewrite <- app_assoc.
      * done.
    + destruct (IH d) as (d' & -> & Hkeys & Hlook).
      { intros k Hk. apply Hin. by right. }
      exists d'. split_and!; [done..|]. intros k. rewrite Hlook, bind_cons.
      destruct (decide (k0 = k)) as [->|Hne]; by rewrite ?Hhit.
Qed.

Lemma try_scan_file_spec (keywords : list string) (file_path : string) (d : dict) :
  (∀ k, k ∈ keywords → k ∈ dict_keys d) →
  ∃ d', try_scan_file keywords file_path d = (d', None) ∧
        dict_keys d' = dict_keys d ∧
        ∀ k, dict_get d' k =
             (λ v, v ++ file_hits keywords k file_path) <$> dict_get d k.
Proof.
  intros Hin. unfold try_scan_file, scan_file, file_hits.
  destruct (open_read file_path) as [text|e].
  - destruct (scan_keywords_spec file_path (lower text) keywords d Hin)
      as (d' & -> & Hkeys & Hlook).
    by exists d'.
  - exists d. split_and!.
    + by destruct e.
    + done.
    + intros k. destruct (dict_get d k); simpl; [|done]. by rewrite app_nil_r.
Qed.

Lemma try_scan_file_unreadable (keywords : list string) (file_path : string)
    (d : dict) (e : exn) :
  open_read file_path = Raise e → try_scan_file keywords file_path d = (d, None).
Proof.
  intros Hread. unfold try_scan_file, scan_file. rewrite Hread. by destruct e.
Qed.

Lemma scan_files_spec (keywords : list string) (file_chunk : list string) :
  ∀ d, (∀ k, k ∈ keywords → k ∈ dict_keys d) →
    ∃ d', for_each file_chunk (try_scan_file keywords) d = (d', None) ∧
          dict_keys d' = dict_keys d ∧
          ∀ k, dict_get d' k =
               (λ v, v ++ file_chunk ≫= file_hits keywords k) <$> dict_get d k.
Proof.
  induction file_chunk as [|f file_chunk IH]; intros d Hin.
  - exists d. split_and!; [done..|]. intros k.
    destruct (dict_get d k); simpl; [|done]. by rewrite app_nil_r.
  - destruct (try_scan_file_spec keywords f d Hin) as (d1 & Hrun1 & Hkeys1 & Hlook1).
    destruct (IH d1) as (d' & Hrun & Hkeys & Hlook).
    { by rewrite Hkeys1. }
    exists d'. cbn [for_each]. rewrite Hrun1.
    split_and!; [done|congruence|]. intros k.
    rewrite Hlook, Hlook1, bind_cons.
    destruct (dict_get d k); simpl; [|done]. by rewrite app_assoc.
Qed.

Lemma process_files_chunk_table (file_chunk keywords : list string) :
  process_files_chunk file_chunk keywords = scan_table file_chunk keywords.
Proof.
  unfold process_files_chunk, scan_table.
  destruct (scan_files_spec keywords file_chunk (empty_lists keywords))
    as (d' & -> & Hkeys & Hlook).
  { intros k. by rewrite empty_lists_keys. }
  cbn [fst]. rewrite <- Hkeys. apply dict_tabulate.
  - rewrite Hkeys. apply empty_lists_NoDup.
  - intros k Hk. rewrite Hlook, empty_lists_get, decide_True; [done|].
    apply empty_lists_keys. by rewrite <- Hkeys.
Qed.

Lemma elem_of_file_hits (keywords : list string) (k f file_path : string) :
  f ∈ file_hits keywords k file_path ↔
    f = file_path ∧ k ∈ keywords ∧
    ∃ text, open_read file_path = Return text ∧
            contains (lower k) (lower text) = true.
Proof.
  unfold file_hits. destruct (open_read file_path) as [text|e].
  - rewrite list_elem_of_bind. split.
    + intros (k' & Hf & Hk'). destruct (decide (k' = k)) as [->|];
        [|by apply elem_of_nil in Hf].
      destruct (contains (lower k) (lower text)) eqn:Hhit;
        [|by apply elem_of_nil in Hf].
      apply list_elem_of_singleton in Hf. eauto.
    + intros (-> & Hk & text' & Htext & Hhit). simplify_eq.
      exists k. rewrite decide_True, Hhit by done. split; [by left|done].
  - split; [by intros ?%elem_of_nil|]. by intros (_ & _ & text & ? & _).
Qed.

Lemma scan_table_get (file_chunk keywords : list string) (k : string) :
  dict_get (scan_table file_chunk keywords) k =
    if decide (k ∈ keywords)
    then Some (file_chunk ≫= file_hits keywords k) else None.
Proof.
  unfold scan_table. rewrite dict_get_tabulate.
  destruct (decide (k ∈ keywords)) as [Hk|Hk].
  - by rewrite decide_True by (by apply empty_lists_keys).
  - by rewrite decide_False by (by rewrite empty_lists_keys).
Qed.

Lemma scan_table_keys (file_chunk keywords : list string) :
  dict_keys (scan_table file_chunk keywords) = dict_keys (empty_lists keywords).
Proof. apply dict_keys_tabulate. Qed.

(** C5. The scanner is a case-insensitive substring test keyed by the
    keyword as given: the keys of the result are exactly the keywords, and
    for a keyword of the list and a readable file, the file is recorded
    under that keyword exactly when it is in the chunk and the lowercased
    keyword occurs inside the lowercased content. *)
Theorem scanner_case_insensitive (file_chunk keywords : list string)
    (keyword : string) :
  keyword ∈ keywords →
  (∀ k, k ∈ dict_keys (process_files_chunk file_chunk keywords) ↔ k ∈ keywords) ∧
  ∃ files,
    dict_get (process_files_chunk file_chunk keywords) keyword = Some files ∧
    ∀ file text, open_read file = Return text →
      (file ∈ files ↔
       file ∈ file_chunk ∧
       ∃ pre post, lower text = pre +:+ lower keyword +:+ post).
Proof.
  intros Hk. rewrite process_files_chunk_table, scan_table_keys. split.
  - apply empty_lists_keys.
  - exists (file_chunk ≫= file_hits keywords keyword).
    rewrite scan_table_get, decide_True by done. split; [done|].
    intros file text Hread. rewrite list_elem_of_bind. split.
    + intros (f & Hhit & Hf). apply elem_of_file_hits in Hhit
        as (-> & _ & text' & Hread' & Hsub).
      split; [done|]. apply contains_spec. congruence.
    + intros [Hf Hsub]. exists file. split; [|done].
      apply elem_of_file_hits. split_and!; [done..|].
      exists text. split; [done|]. by apply contains_spec.
Qed.

Lemma process_files_chunk_app (pre post keywords : list string) (file : string)
    (e : exn) :
  open_read file = Raise e →
  process_files_chunk (pre ++ file :: post) keywords =
    process_files_chunk (pre ++ post) keywords.
Proof.
  intros Hread. rewrite !process_files_chunk_table. unfold scan_table.
  apply map_ext. intros k. f_equal. rewrite !bind_app, bind_cons.
  unfold file_hits at 2. by rewrite Hread.
Qed.

(** ** The worker pool *)

Lemma pool_run_app (keywords : list string) (s1 s2 s3 : pool) (t1 t2 : list event) :
  pool_run keywords s1 t1 s2 → pool_run keywords s2 t2 s3 →
  pool_run keywords s1 (t1 ++ t2) s3.
Proof.
  induction 1 as [s|s1 ev s2 evs s2' Hstep Hrun IH]; intros Hrest; [done|].
  simpl. eapply run_step; [done|]. by apply IH.
Qed.

Lemma spawn_all (keywords : list string) (chunks : list (list string)) :
  ∀ run q, pool_run keywords (Pool chunks run q)
             (replicate (length chunks) Spawned) (Pool [] (run ++ chunks) q).
Proof.
  induction chunks as [|c chunks IH]; intros run q; simpl.
  - rewrite app_nil_r. constructor.
  - eapply run_step; [constructor|].
    replace (run ++ c :: chunks) with ((run ++ [c]) ++ chunks)
      by (by rewrite <- app_assoc).
    apply IH.
Qed.

Lemma publish_all (keywords : list string) (run : list (list string)) :
  ∀ q, pool_run keywords (Pool [] run q)
         (replicate (length run) Published)
         (Pool [] [] (q ++ map (λ c, process_files_chunk c keywords) run)).
Proof.
  induction run as [|c run IH]; intros q; simpl.
  - rewrite app_nil_r. constructor.
  - eapply run_step; [apply (step_publish lower open_read keywords [] [] c run q)|].
    simpl. unfold generic_worker.
    replace (q ++ process_files_chunk c keywords ::
               map (λ c, process_files_chunk c keywords) run)
      with ((q ++ [process_files_chunk c keywords]) ++
               map (λ c, process_files_chunk c keywords) run)
      by (by rewrite <- app_assoc).
    apply IH.
Qed.

Lemma pool_step_inv (keywords : list string) (s s' : pool) (ev : event) :
  pool_step keywords s ev s' →
  match ev with
  | Spawned => results_queue s' = results_queue s ∧ pending s' = pending s
  | Published =>
      ∃ c, results_queue s' =
             results_queue s ++ [process_files_chunk c keywords] ∧
           pending s ≡ₚ c :: pending s'
  | Crashed =>
      ∃ c, results_queue s' = results_queue s ∧ pending s ≡ₚ c :: pending s'
  end.
Proof.
  destruct 1; unfold pending; simpl.
  - split; [done|]. by rewrite <- app_assoc.
  - exists chunk. split; [done|]. rewrite <- !app_assoc. simpl.
    symmetry. apply Permutation_middle.
  - exists chunk. split; [done|]. rewrite <- !app_assoc. simpl.
    symmetry. apply Permutation_middle.
Qed.

Lemma pool_run_inv (keywords : list string) (s s' : pool) (trace : list event) :
  pool_run keywords s trace s' →
  ∃ published crashed,
    results_queue s' =
      results_queue s ++ map (λ c, process_files_chunk c keywords) published ∧
    pending s ≡ₚ published ++ crashed ++ pending s' ∧
    length published = count_event Published trace ∧
    length crashed = count_event Crashed trace.
Proof.
  induction 1 as [s|s1 ev s2 evs s3 Hstep Hrun IH].
  - exists [], []. by rewrite app_nil_r.
  - destruct IH as (pub & cr & Hq & Hpend & Hpub & Hcr).
    apply pool_step_inv in Hstep. destruct ev.
    + destruct Hstep as [Hq1 Hp1]. exists pub, cr.
      rewrite Hq, Hq1, <- Hp1. done.
    + destruct Hstep as (c & Hq1 & Hp1). exists (c :: pub), cr.
      split_and!.
      * rewrite Hq, Hq1, <- app_assoc. done.
      * rewrite Hp1, Hpend. done.
      * rewrite count_event_cons, decide_True by done. simpl. by rewrite Hpub.
      * by rewrite count_event_cons, decide_False.
    + destruct Hstep as (c & Hq1 & Hp1). exists pub, (c :: cr).
      split_and!.
      * by rewrite Hq, Hq1.
      * rewrite Hp1, Hpend. simpl. apply Permutation_middle.
      * by rewrite count_event_cons, decide_False.
      * rewrite count_event_cons, decide_True by done. simpl. by rewrite Hcr.
Qed.

Lemma pool_idle_run (keywords : list string) (q : list dict) (trace : list event)
    (s' : pool) :
  pool_run keywords (Pool [] [] q) trace s' → trace = [] ∧ s' = Pool [] [] q.
Proof.
  inversion 1 as [|s1 ev s2 evs s3 Hstep Hrun]; subst; [done|].
  inversion Hstep as [|rest pre c post q' Heq|rest pre c post q' Heq]; subst;
    by destruct pre.
Qed.

(** ** [run_analysis] *)

Lemma worker_results_known (keywords : list string) (chunks : list (list string)) :
  keys_known keywords (map (λ c, process_files_chunk c keywords) chunks).
Proof.
  unfold keys_known. apply Forall_forall. intros res Hres.
  apply list_elem_of_fmap in Hres as (c & -> & _).
  apply Forall_forall. intros kv Hkv. apply empty_lists_keys.
  rewrite <- (scan_table_keys c), <- process_files_chunk_table.
  unfold dict_keys. apply list_elem_of_fmap. by exists kv.
Qed.

Lemma elem_of_worker_files (keywords : list string) (chunks : list (list string))
    (k x : string) :
  x ∈ all_files_for k (map (λ c, process_files_chunk c keywords) chunks) ↔
    k ∈ keywords ∧ ∃ c f, c ∈ chunks ∧ f ∈ c ∧ x ∈ file_hits keywords k f.
Proof.
  unfold all_files_for. rewrite list_elem_of_bind. split.
  - intros (res & Hx & Hres). apply list_elem_of_fmap in Hres as (c & -> & Hc).
    rewrite process_files_chunk_table in Hx. unfold scan_table in Hx.
    apply elem_of_files_for_tabulate in Hx as [Hk Hx].
    rewrite empty_lists_keys in Hk. split; [done|].
    apply list_elem_of_bind in Hx as (f & Hx & Hf). by exists c, f.
  - intros (Hk & c & f & Hc & Hf & Hx). exists (process_files_chunk c keywords).
    split; [|apply list_elem_of_fmap; by exists c].
    rewrite process_files_chunk_table. unfold scan_table.
    apply elem_of_files_for_tabulate. split; [by apply empty_lists_keys|].
    apply list_elem_of_bind. by exists f.
Qed.

Lemma merged_table_workers (file_list keywords : list string) (num_workers : Z)
    (chunks published : list (list string)) :
  make_chunks file_list num_workers = Return chunks →
  chunks ≡ₚ published →
  merged_table (map (λ c, process_files_chunk c keywords) published) keywords =
    search_table file_list keywords num_workers.
Proof.
  intros Hchunks Hperm. unfold merged_table, search_table.
  apply map_ext. intros k. f_equal. apply sorted_set_ext. intros x.
  rewrite elem_of_worker_files. split.
  - intros (Hk & c & f & Hc & Hf & Hx). rewrite <- Hperm in Hc.
    destruct (proj1 (make_chunks_elem_of _ _ _ Hchunks f)) as [Hpos Hin];
      [by exists c|].
    rewrite decide_True by done. apply list_elem_of_bind. by exists f.
  - intros Hx. destruct (decide (0 < num_workers)%Z) as [Hpos|Hneg];
      [|by apply elem_of_nil in Hx].
    apply list_elem_of_bind in Hx as (f & Hx & Hf).
    destruct (proj2 (make_chunks_elem_of _ _ _ Hchunks f)) as (c & Hc & Hfc);
      [done|].
    split; [by apply elem_of_file_hits in Hx as (_ & ? & _)|].
    exists c, f. by rewrite <- Hperm.
Qed.

(** Every run under a known mode returns the merge of the results that
    were published; it never raises. *)
Lemma run_analysis_outcome (file_list keywords : list string) (num_workers : Z)
    (mode : string) (trace : list event) (outcome : except dict) :
  mode = "threading" ∨ mode = "multiprocessing" →
  run_analysis file_list keywords num_workers mode trace outcome →
  ∃ chunks published crashed,
    make_chunks file_list num_workers = Return chunks ∧
    chunks ≡ₚ published ++ crashed ∧
    length published = count_event Published trace ∧
    length crashed = count_event Crashed trace ∧
    outcome = merge_results
                (map (λ c, process_files_chunk c keywords) published) keywords ∧
    outcome = Return (merged_table
                (map (λ c, process_files_chunk c keywords) published) keywords).
Proof.
  intros [backend Hmode]%select_backend_known Hrun.
  destruct Hrun as [e He|backend' e _ He|backend' chunks trace q _ Hchunks Hrun].
  - congruence.
  - destruct (make_chunks_total file_list num_workers) as (chunks & Hc & _).
    congruence.
  - apply pool_run_inv in Hrun as (pub & cr & Hq & Hpend & Hpub & Hcr).
    unfold pending in Hpend. simpl in Hq, Hpend. rewrite app_nil_r in Hpend.
    subst q. exists chunks, pub, cr. rewrite drain_app. simpl.
    split_and!; [done..|]. apply merge_results_Return, worker_results_known.
Qed.

Lemma run_analysis_crash_free (file_list keywords : list string) (num_workers : Z)
    (mode : string) (trace : list event) (outcome : except dict) :
  mode = "threading" ∨ mode = "multiprocessing" →
  Crashed ∉ trace →
  run_analysis file_list keywords num_workers mode trace outcome →
  outcome = Return (search_table file_list keywords num_workers).
Proof.
  intros Hmode Hfree Hrun.
  apply run_analysis_outcome in Hrun
    as (chunks & pub & cr & Hchunks & Hperm & _ & Hcr & _ & ->); [|done].
  rewrite count_event_zero in Hcr by done.
  apply nil_length_inv in Hcr as ->. rewrite app_nil_r in Hperm.
  f_equal. by eapply merged_table_workers.
Qed.

Lemma run_analysis_in_order (file_list keywords : list string) (num_workers : Z)
    (mode : string) :
  mode = "threading" ∨ mode = "multiprocessing" →
  run_analysis file_list keywords num_workers mode (in_order_trace num_workers)
    (Return (search_table file_list keywords num_workers)).
Proof.
  intros Hmode. pose proof Hmode as [backend Hbackend]%select_backend_known.
  destruct (make_chunks_total file_list num_workers) as (chunks & Hchunks & Hlen).
  assert (run_analysis file_list keywords num_workers mode
            (in_order_trace num_workers)
            (merge_results
               (drain (map (λ c, process_files_chunk c keywords) chunks) [])
               keywords)) as Hrun.
  { eapply run_joined; [done..|]. unfold in_order_trace. rewrite <- Hlen.
    eapply pool_run_app; [apply spawn_all|]. apply (publish_all keywords chunks []). }
  pose proof (run_analysis_crash_free _ _ _ _ _ _ Hmode
                (in_order_trace_crash_free num_workers) Hrun) as Heq.
  by rewrite Heq in Hrun.
Qed.

Lemma search_table_get (file_list keywords : list string) (num_workers : Z)
    (k : string) :
  dict_get (search_table file_list keywords num_workers) k =
    if decide (k ∈ keywords)
    then Some (sorted_set (if decide (0 < num_workers)%Z
                           then file_list ≫= file_hits keywords k else []))
    else None.
Proof.
  unfold search_table. rewrite dict_get_tabulate.
  destruct (decide (k ∈ keywords)) as [Hk|Hk].
  - by rewrite decide_True by (by apply empty_lists_keys).
  - by rewrite decide_False by (by rewrite empty_lists_keys).
Qed.

Lemma search_table_unreadable (pre post keywords : list string) (file : string)
    (e : exn) (num_workers : Z) :
  open_read file = Raise e →
  search_table (pre ++ file :: post) keywords num_workers =
    search_table (pre ++ post) keywords num_workers.
Proof.
  intros Hread. unfold search_table. apply map_ext. intros k. do 2 f_equal.
  case_decide; [|done]. rewrite !bind_app, bind_cons.
  unfold file_hits at 2. by rewrite Hread.
Qed.

(** C8 (as amended). Only an unknown mode is rejected at entry: the call
    raises [ValueError] before any worker is started and returns nothing.
    Under a known mode, a worker count that is zero or negative is not
    rejected: no worker is started and every keyword is mapped to the empty
    list; and an empty keyword list is not rejected: the call returns the
    empty mapping. *)
Theorem run_analysis_entry_checks (file_list keywords : list string)
    (num_workers : Z) (mode : string) :
  (mode ≠ "threading" → mode ≠ "multiprocessing" →
     run_analysis file_list keywords num_workers mode []
                  (Raise (ValueError ("Unknown mode: " +:+ mode))) ∧
     ∀ trace outcome,
       run_analysis file_list keywords num_workers mode trace outcome →
       trace = [] ∧ outcome = Raise (ValueError ("Unknown mode: " +:+ mode))) ∧
  (mode = "threading" ∨ mode = "multiprocessing" → (num_workers ≤ 0)%Z →
     run_analysis file_list keywords num_workers mode []
                  (Return (empty_lists keywords)) ∧
     ∀ trace outcome,
       run_analysis file_list keywords num_workers mode trace outcome →
       trace = [] ∧ outcome = Return (empty_lists keywords)) ∧
  (mode = "threading" ∨ mode = "multiprocessing" → keywords = [] →
     run_analysis file_list keywords num_workers mode
                  (in_order_trace num_workers) (Return []) ∧
     ∀ trace outcome,
       run_analysis file_list keywords num_workers mode trace outcome →
       outcome = Return []).
Proof.
  split_and!.
  - intros Hne1 Hne2.
    assert (select_backend mode =
            Raise (ValueError ("Unknown mode: " +:+ mode))) as Hsel.
    { unfold select_backend. by rewrite !decide_False. }
    split; [by constructor|]. intros trace outcome Hrun.
    destruct Hrun as [e He|backend e Hb _|backend chunks trace q Hb _ _];
      [|congruence..].
    split; [done|congruence].
  - intros Hmode Hn. pose proof Hmode as [backend Hb]%select_backend_known.
    assert (∀ trace outcome,
      run_analysis file_list keywords num_workers mode trace outcome →
      trace = [] ∧ outcome = Return (empty_lists keywords)) as Hall.
    { intros trace outcome Hrun.
      destruct Hrun as [e He|backend' e _ He|backend' chunks trace q _ Hchunks Hrun].
      - congruence.
      - rewrite make_chunks_nonpos in He by done. done.
      - rewrite make_chunks_nonpos in Hchunks by done. injection Hchunks as <-.
        apply pool_idle_run in Hrun as [-> [= ->]]. split; [done|].
        simpl. rewrite merge_results_Return by constructor.
        by rewrite merged_table_nil. }
    split; [|done].
    pose proof (run_analysis_in_order file_list keywords num_workers mode Hmode)
      as Hrun.
    destruct (Hall _ _ Hrun) as [Htrace Hout]. by rewrite Htrace, Hout in Hrun.
  - intros Hmode ->.
    assert (∀ trace outcome,
      run_analysis file_list [] num_workers mode trace outcome →
      outcome = Return []) as Hall.
    { intros trace outcome Hrun. apply run_analysis_outcome in Hrun
        as (chunks & pub & cr & _ & _ & _ & _ & _ & ->); done. }
    split; [|done].
    pose proof (run_analysis_in_order file_list [] num_workers mode Hmode) as Hrun.
    by rewrite (Hall _ _ Hrun) in Hrun.
Qed.

(** C9 (as amended). A shortfall of published results is not detected.
    Under a known mode every run, also one in which workers terminated
    without publishing, returns a mapping and raises nothing: the chunks
    split into those whose worker published and those whose worker crashed
    (as many as there are crash events), and the outcome is
    [merge_results] of the published results alone. *)
Theorem shortfall_merged_silently (file_list keywords : list string)
    (num_workers : Z) (mode : string) (trace : list event)
    (outcome : except dict) :
  mode = "threading" ∨ mode = "multiprocessing" →
  run_analysis file_list keywords num_workers mode trace outcome →
  ∃ chunks published crashed r,
    make_chunks file_list num_workers = Return chunks ∧
    chunks ≡ₚ published ++ crashed ∧
    length published = count_event Published trace ∧
    length crashed = count_event Crashed trace ∧
    outcome = merge_results
                (map (λ c, process_files_chunk c keywords) published) keywords ∧
    outcome = Return r.
Proof.
  intros Hmode Hrun. apply run_analysis_outcome in Hrun
    as (chunks & pub & cr & Hchunks & Hperm & Hpub & Hcr & Hmerge & Hret); [|done].
  exists chunks, pub, cr. eexists. split_and!; done.
Qed.

End EngineCorrect.

(** ** The model on concrete inputs *)

Example chunks_of_five :
  make_chunks ["f0"; "f1"; "f2"; "f3"; "f4"] 2 =
    Return [["f0"; "f2"; "f4"]; ["f1"; "f3"]].
Proof. reflexivity. Qed.

Example chunks_more_workers_than_files :
  make_chunks ["f0"; "f1"] 3 = Return [["f0"]; ["f1"]; []].
Proof. reflexivity. Qed.

Example scan_mixed_chunk :
  process_files_chunk ascii_lower sample_files
    ["a.txt"; "locked.txt"; "b.txt"; "binary.txt"] ["alpha"; "Beta"; "gamma"] =
    [("alpha", ["a.txt"; "b.txt"]); ("Beta", ["b.txt"]); ("gamma", [])].
Proof. vm_compute. reflexivity. Qed.

Example merge_two_partials :
  merge_results
    [[("alpha", ["b.txt"; "a.txt"; "b.txt"])];
     [("alpha", ["a.txt"]); ("beta", ["z"; "c"])]]
    ["alpha"; "beta"; "alpha"] =
    Return [("alpha", ["a.txt"; "b.txt"]); ("beta", ["c"; "z"])].
Proof. vm_compute. reflexivity. Qed.

Example merge_unknown_key :
  merge_results [[("alpha", ["b.txt"]); ("zeta", [])]] ["alpha"] =
    Raise (KeyError "zeta").
Proof. vm_compute. reflexivity. Qed.

(** Three files, two keywords, two workers. *)
Example search_three_files :
  run_analysis ascii_lower sample_files ["a.txt"; "b.txt"; "c.txt"]
    ["alpha"; "beta"] 2 "threading" (in_order_trace 2)
    (Return [("alpha", ["a.txt"; "b.txt"]); ("beta", ["b.txt"])]).
Proof.
  pose proof (run_analysis_in_order ascii_lower sample_files
                ["a.txt"; "b.txt"; "c.txt"] ["alpha"; "beta"] 2 "threading") as H.
  vm_compute search_table in H. apply H. by left.
Qed.

(** No file at all. *)
Example search_no_file :
  run_analysis ascii_lower sample_files [] ["x"] 4 "multiprocessing"
    (in_order_trace 4) (Return [("x", [])]).
Proof.
  pose proof (run_analysis_in_order ascii_lower sample_files
                [] ["x"] 4 "multiprocessing") as H.
  vm_compute search_table in H. apply H. by right.
Qed.

(** One worker that terminates without publishing: the join returns, the
    queue is empty, and the merge of nothing is returned. *)
Lemma crashed_worker_run :
  run_analysis ascii_lower sample_files ["a.txt"] ["alpha"] 1 "threading"
    [Spawned; Crashed] (Return [("alpha", [])]).
Proof.
  change (Return [("alpha", [])])
    with (merge_results (drain [] []) ["alpha"]).
  apply (run_joined ascii_lower sample_files ["a.txt"] ["alpha"] 1 "threading"
           (Thread, ThreadQueue, "Threading") [["a.txt"]]).
  - reflexivity.
  - reflexivity.
  - eapply run_step; [apply step_spawn|].
    eapply run_step; [apply (step_crash _ _ _ [] [] ["a.txt"] [] [])|].
    apply run_done.
Qed.

(** With no worker to start, the pool is idle from the beginning. *)
Lemma no_worker_run (keywords : list string) :
  run_analysis ascii_lower sample_files ["a.txt"] keywords 0 "threading" []
    (merge_results [] keywords).
Proof.
  apply (run_joined ascii_lower sample_files ["a.txt"] keywords 0 "threading"
           (Thread, ThreadQueue, "Threading") [] [] []).
  - reflexivity.
  - reflexivity.
  - apply run_done.
Qed.

(** ** Instances of the theorems *)

Lemma chunks_partition_witness :
  (0 < 2)%Z ∧
  ∃ chunks,
    make_chunks ["f0"; "f1"; "f2"; "f3"; "f4"] 2 = Return chunks ∧
    concat chunks ≡ₚ ["f0"; "f1"; "f2"; "f3"; "f4"] ∧
    (∀ f, f ∈ ["f0"; "f1"; "f2"; "f3"; "f4"] ↔ ∃ c, c ∈ chunks ∧ f ∈ c) ∧
    (NoDup ["f0"; "f1"; "f2"; "f3"; "f4"] →
       ∀ j1 j2 c1 c2 f,
         chunks !! j1 = Some c1 → chunks !! j2 = Some c2 →
         f ∈ c1 → f ∈ c2 → j1 = j2).
Proof.
  split; [lia|]. apply (chunks_partition ["f0"; "f1"; "f2"; "f3"; "f4"] 2). lia.
Defined.

Lemma chunks_round_robin_witness :
  (0 < 3)%Z ∧
  ∃ chunks,
    make_chunks ["f0"; "f1"] 3 = Return chunks ∧
    length chunks = Z.to_nat 3 ∧
    (∀ i f, ["f0"; "f1"] !! i = Some f →
       ∃ c, chunks !! (i mod Z.to_nat 3) = Some c ∧
            c !! (i / Z.to_nat 3) = Some f) ∧
    (∀ j c p f, chunks !! j = Some c → c !! p = Some f →
       j < Z.to_nat 3 ∧ ["f0"; "f1"] !! (j + p * Z.to_nat 3) = Some f) ∧
    (∀ j, length ["f0"; "f1"] ≤ j < Z.to_nat 3 → chunks !! j = Some []) ∧
    (["f0"; "f1"] = [] → chunks = replicate (Z.to_nat 3) []).
Proof.
  split; [lia|]. apply (chunks_round_robin ["f0"; "f1"] 3). lia.
Defined.

Lemma merge_results_complete_sorted_witness :
  merge_results [[("alpha", ["b.txt"; "a.txt"])]; [("alpha", ["a.txt"])]]
                ["alpha"; "beta"] =
    Return [("alpha", ["a.txt"; "b.txt"]); ("beta", [])] ∧
  NoDup (dict_keys [("alpha", ["a.txt"; "b.txt"]); ("beta", [])]) ∧
  (∀ k, k ∈ dict_keys [("alpha", ["a.txt"; "b.txt"]); ("beta", [])] ↔
        k ∈ ["alpha"; "beta"]) ∧
  ∀ k, k ∈ ["alpha"; "beta"] →
    ∃ files,
      dict_get [("alpha", ["a.txt"; "b.txt"]); ("beta", [])] k = Some files ∧
      NoDup files ∧
      StronglySorted String.le files ∧
      (∀ f, f ∈ files ↔
            f ∈ all_files_for k
                  [[("alpha", ["b.txt"; "a.txt"])]; [("alpha", ["a.txt"])]]) ∧
      (all_files_for k
         [[("alpha", ["b.txt"; "a.txt"])]; [("alpha", ["a.txt"])]] = [] →
       files = []).
Proof.
  split; [vm_compute; reflexivity|].
  apply (merge_results_complete_sorted
           [[("alpha", ["b.txt"; "a.txt"])]; [("alpha", ["a.txt"])]]
           ["alpha"; "beta"]).
  vm_compute. reflexivity.
Defined.

Lemma merge_results_order_independent_witness :
  [[("alpha", ["b.txt"])]; [("alpha", ["a.txt"])]] ≡ₚ
    [[("alpha", ["a.txt"])]; [("alpha", ["b.txt"])]] ∧
  ∀ r,
    merge_results [[("alpha", ["b.txt"])]; [("alpha", ["a.txt"])]] ["alpha"] =
      Return r ↔
    merge_results [[("alpha", ["a.txt"])]; [("alpha", ["b.txt"])]] ["alpha"] =
      Return r.
Proof.
  split; [apply perm_swap|].
  apply (merge_results_order_independent
           [[("alpha", ["b.txt"])]; [("alpha", ["a.txt"])]]
           [[("alpha", ["a.txt"])]; [("alpha", ["b.txt"])]] ["alpha"]).
  apply perm_swap.
Defined.

Lemma scanner_case_insensitive_witness :
  "Beta" ∈ ["alpha"; "Beta"] ∧
  (∀ k, k ∈ dict_keys (process_files_chunk ascii_lower sample_files
                         ["a.txt"; "b.txt"] ["alpha"; "Beta"]) ↔
        k ∈ ["alpha"; "Beta"]) ∧
  ∃ files,
    dict_get (process_files_chunk ascii_lower sample_files
                ["a.txt"; "b.txt"] ["alpha"; "Beta"]) "Beta" = Some files ∧
    ∀ file text, sample_files file = Return text →
      (file ∈ files ↔
       file ∈ ["a.txt"; "b.txt"] ∧
       ∃ pre post, ascii_lower text = pre +:+ ascii_lower "Beta" +:+ post).
Proof.
  split; [by right; left|].
  apply (scanner_case_insensitive ascii_lower sample_files
           ["a.txt"; "b.txt"] ["alpha"; "Beta"] "Beta").
  by right; left.
Defined.

Lemma shortfall_merged_silently_witness :
  ("threading" = "threading" ∨ "threading" = "multiprocessing") ∧
  run_analysis ascii_lower sample_files ["a.txt"] ["alpha"] 1 "threading"
    [Spawned; Crashed] (Return [("alpha", [])]) ∧
  ∃ chunks published crashed r,
    make_chunks ["a.txt"] 1 = Return chunks ∧
    chunks ≡ₚ published ++ crashed ∧
    length published = count_event Published [Spawned; Crashed] ∧
    length crashed = count_event Crashed [Spawned; Crashed] ∧
    @Return dict [("alpha", [])] =
      merge_results
        (map (λ c, process_files_chunk ascii_lower sample_files c ["alpha"])
             published) ["alpha"] ∧
    @Return dict [("alpha", [])] = Return r.
Proof.
  split; [by left|]. split; [exact crashed_worker_run|].
  apply (shortfall_merged_silently ascii_lower sample_files
           ["a.txt"] ["alpha"] 1 "threading" [Spawned; Crashed]
           (Return [("alpha", [])])).
  - by left.
  - exact crashed_worker_run.
Defined.

(** ** Where the code departs from the stated error policy *)

(** Against C8: a worker count of zero and an empty keyword list are both
    accepted under "threading"; the call returns a mapping. *)
Lemma invalid_configuration_not_rejected :
  ¬ (∀ trace outcome,
       run_analysis ascii_lower sample_files ["a.txt"] ["alpha"] 0 "threading"
                    trace outcome →
       ∃ e, outcome = Raise e) ∧
  ¬ (∀ trace outcome,
       run_analysis ascii_lower sample_files ["a.txt"] [] 0 "threading"
                    trace outcome →
       ∃ e, outcome = Raise e).
Proof.
  split; intros Hreject.
  - destruct (Hreject _ _ (no_worker_run ["alpha"])) as [e He]. discriminate He.
  - destruct (Hreject _ _ (no_worker_run [])) as [e He]. discriminate He.
Qed.

(** Against C9: one worker, which terminates without publishing. Fewer
    results than workers were published, yet the call returns a mapping,
    and that mapping misses ["a.txt"], which does contain the keyword. *)
Lemma shortfall_not_detected :
  ¬ (∀ trace outcome,
       run_analysis ascii_lower sample_files ["a.txt"] ["alpha"] 1 "threading"
                    trace outcome →
       count_event Published trace < Z.to_nat 1 →
       ∃ e, outcome = Raise e).
Proof.
  intros Hdetect.
  destruct (Hdetect _ _ crashed_worker_run) as [e He].
  - vm_compute. lia.
  - discriminate He.
Qed.

(** * Further properties of the engine *)

(** ** Size of the chunks *)

Lemma stride_length {A} (gap : nat) (l : list A) :
  ∀ wait, wait ≤ gap →
    length (stride gap wait l) = (length l + gap - wait) / S gap.
Proof.
  induction l as [|x l IH]; intros wait Hwait; cbn [stride length].
  - symmetry. apply Nat.div_small. lia.
  - destruct wait as [|w]; cbn [length].
    + rewrite IH by done.
      replace (length l + gap - gap) with (length l) by lia.
      replace (S (length l) + gap - 0) with (length l + 1 * S gap) by lia.
      rewrite Nat.div_add; lia.
    + rewrite IH by lia. done.
Qed.

(** X1. The load is balanced: with [num_workers > 0], chunk [j] holds
    [(len + num_workers - 1 - j) / num_workers] files, so a chunk is never
    longer than an earlier one and never more than one file shorter. *)
Theorem chunks_balanced (file_list : list string) (num_workers : Z)
    (chunks : list (list string)) :
  (0 < num_workers)%Z →
  make_chunks file_list num_workers = Return chunks →
  (∀ j c, chunks !! j = Some c →
     length c =
       (length file_list + Z.to_nat num_workers - 1 - j) / Z.to_nat num_workers) ∧
  (∀ j1 j2 c1 c2, j1 ≤ j2 → chunks !! j1 = Some c1 → chunks !! j2 = Some c2 →
     length c2 ≤ length c1 ≤ length c2 + 1).
Proof.
  intros Hpos Hchunks. rewrite make_chunks_pos in Hchunks by done.
  injection Hchunks as <-. set (n := Z.to_nat num_workers).
  assert (0 < n) as Hn by lia.
  assert (∀ j c, map (λ i, stride (n - 1) i file_list) (seq 0 n) !! j = Some c →
    j < n ∧ length c = (length file_list + n - 1 - j) / n) as Hlen.
  { intros j c [Hj ->]%strides_lookup. split; [done|].
    rewrite stride_length by lia. replace (S (n - 1)) with n by lia.
    f_equal. lia. }
  split.
  - intros j c Hj. by apply Hlen in Hj as [_ ?].
  - intros j1 j2 c1 c2 Hle [Hj1 ->]%Hlen [Hj2 ->]%Hlen. split.
    + apply Nat.Div0.div_le_mono. lia.
    + trans ((length file_list + n - 1 - j2 + 1 * n) / n).
      * apply Nat.Div0.div_le_mono. lia.
      * rewrite Nat.div_add; lia.
Qed.

(** X2. Chunking never raises, whatever the worker count: it returns
    [max num_workers 0] chunks. The slice [file_list[i::0]], which would
    raise [ValueError], is never evaluated because [range(0)] is empty. *)
Theorem make_chunks_never_raises (file_list : list string) (num_workers : Z) :
  (∃ chunks, make_chunks file_list num_workers = Return chunks ∧
             Z.of_nat (length chunks) = Z.max num_workers 0) ∧
  (∀ i, ∃ e, slice_from_step file_list i 0 = Raise e) ∧
  make_chunks file_list 0 = Return [].
Proof.
  split_and!.
  - destruct (make_chunks_total file_list num_workers) as (chunks & Hc & Hlen).
    exists chunks. split; [done|]. lia.
  - intros i. by eexists.
  - done.
Qed.

(** ** Order of the keys *)

Lemma empty_lists_order_from (keywords : list string) :
  ∀ d, NoDup (dict_keys d ++ keywords) →
    dict_keys (foldl (λ d k, dict_set d k []) d keywords) = dict_keys d ++ keywords.
Proof.
  induction keywords as [|k keywords IH]; intros d Hnd; cbn [foldl].
  - by rewrite app_nil_r.
  - rewrite IH.
    + rewrite dict_keys_set, decide_False, <- app_assoc; [done|].
      apply NoDup_app in Hnd as (_ & Hdisj & _). intros Hk.
      apply (Hdisj k Hk). by left.
    + rewrite dict_keys_set, decide_False, <- app_assoc; [done|].
      apply NoDup_app in Hnd as (_ & Hdisj & _). intros Hk.
      apply (Hdisj k Hk). by left.
Qed.

Lemma empty_lists_order (keywords : list string) :
  NoDup keywords → dict_keys (empty_lists keywords) = keywords.
Proof. intros Hnd. by apply (empty_lists_order_from keywords []). Qed.

(** X3. When the keywords are pairwise distinct, the mapping returned by
    [merge_results] lists its keys in the order of the keyword list. *)
Theorem merge_results_key_order (partial_results : list dict)
    (keywords : list string) (r : dict) :
  NoDup keywords →
  merge_results partial_results keywords = Return r →
  dict_keys r = keywords.
Proof.
  intros Hnd [_ ->]%merge_results_inv.
  by rewrite merged_table_keys, empty_lists_order.
Qed.

(** ** Merging merged results *)

Lemma merged_table_known (partial_results : list dict) (keywords : list string) :
  Forall (λ kv : string * list string, kv.1 ∈ keywords)
         (merged_table partial_results keywords).
Proof.
  apply Forall_forall. intros kv Hkv. apply empty_lists_keys.
  rewrite <- (merged_table_keys partial_results).
  unfold dict_keys. apply list_elem_of_fmap. by exists kv.
Qed.

Lemma elem_of_files_for_merged (partial_results : list dict)
    (keywords : list string) (k x : string) :
  x ∈ files_for k (merged_table partial_results keywords) ↔
    k ∈ keywords ∧ x ∈ all_files_for k partial_results.
Proof.
  unfold merged_table.
  by rewrite elem_of_files_for_tabulate, empty_lists_keys, elem_of_sorted_set.
Qed.

Lemma merged_table_ext (ps1 ps2 : list dict) (keywords : list string) :
  (∀ k x, k ∈ keywords → x ∈ all_files_for k ps1 ↔ x ∈ all_files_for k ps2) →
  merged_table ps1 keywords = merged_table ps2 keywords.
Proof.
  intros Hext. unfold merged_table. apply map_ext_in. intros k Hk. f_equal.
  apply sorted_set_ext. intros x. apply Hext.
  by apply empty_lists_keys, list_elem_of_In.
Qed.

(** X4. Merging is idempotent: merging the single mapping that
    [merge_results] returned, with the same keywords, returns it again. *)
Theorem merge_results_idempotent (partial_results : list dict)
    (keywords : list string) (r : dict) :
  merge_results partial_results keywords = Return r →
  merge_results [r] keywords = Return r.
Proof.
  intros [_ ->]%merge_results_inv.
  rewrite merge_results_Return.
  - f_equal. apply merged_table_ext. intros k x Hk.
    unfold all_files_for at 1. rewrite bind_singleton.
    rewrite elem_of_files_for_merged. naive_solver.
  - constructor; [apply merged_table_known|constructor].
Qed.

(** X5. Merging can be done in stages: if each group of partial results
    merges to a mapping, merging those mappings gives what merging all the
    partial results at once gives. *)
Theorem merge_results_staged (groups : list (list dict)) (merged : list dict)
    (keywords : list string) :
  Forall2 (λ ps r, merge_results ps keywords = Return r) groups merged →
  merge_results merged keywords = merge_results (concat groups) keywords.
Proof.
  intros Hall.
  assert (keys_known keywords merged ∧ keys_known keywords (concat groups) ∧
          ∀ k x, k ∈ keywords →
            x ∈ all_files_for k merged ↔ x ∈ all_files_for k (concat groups))
    as (Hk1 & Hk2 & Hext).
  { induction Hall as [|ps r groups merged Hr Hall (IH1 & IH2 & IH3)].
    - split_and!; [constructor..|done].
    - apply merge_results_inv in Hr as [Hps ->]. split_and!.
      + constructor; [apply merged_table_known|done].
      + simpl. unfold keys_known. apply Forall_app. by split.
      + intros k x Hk. unfold all_files_for in *.
        change (concat (ps :: groups)) with (ps ++ concat groups).
        rewrite bind_cons, bind_app, !elem_of_app, elem_of_files_for_merged.
        rewrite (IH3 k x Hk). naive_solver. }
  rewrite !merge_results_Return by done. f_equal. by apply merged_table_ext.
Qed.

(** X6. [merge_results] depends only on which partial results are present,
    not on how often each one occurs or in which order: two sequences with
    the same members give the same mapping, and one returns exactly when
    the other does. *)
Theorem merge_results_set_of_partials (ps1 ps2 : list dict)
    (keywords : list string) :
  (∀ res, res ∈ ps1 ↔ res ∈ ps2) →
  ∀ r, merge_results ps1 keywords = Return r ↔
       merge_results ps2 keywords = Return r.
Proof.
  assert (∀ qs1 qs2 r, (∀ res, res ∈ qs1 ↔ res ∈ qs2) →
    merge_results qs1 keywords = Return r →
    merge_results qs2 keywords = Return r) as Hdir.
  { intros qs1 qs2 r Hsame [Hk ->]%merge_results_inv.
    rewrite merge_results_Return.
    - f_equal. apply merged_table_ext. intros k x _. unfold all_files_for.
      rewrite !list_elem_of_bind. by setoid_rewrite Hsame.
    - unfold keys_known in *. rewrite Forall_forall in Hk.
      apply Forall_forall. intros res Hres. by apply Hk, Hsame. }
  intros Hsame r. split; apply Hdir; [done|]. intros res. by rewrite Hsame.
Qed.

(** ** Counting events *)

Lemma count_events_length (trace : list event) :
  length trace =
    count_event Spawned trace + count_event Published trace +
    count_event Crashed trace.
Proof.
  induction trace as [|ev trace IH]; [done|].
  rewrite !count_event_cons. cbn [length]. rewrite IH.
  destruct ev; repeat case_decide; try done; lia.
Qed.

Lemma contains_empty (s : string) : contains "" s = true.
Proof. by destruct s. Qed.

Lemma filter_eq_once (k : string) (keywords : list string) :
  NoDup keywords → k ∈ keywords →
  length (filter (λ k', k' = k) keywords) = 1.
Proof.
  induction keywords as [|k0 keywords IH]; intros Hnd Hk.
  - by apply elem_of_nil in Hk.
  - apply NoDup_cons in Hnd as [Hk0 Hnd]. rewrite filter_cons.
    destruct (decide (k0 = k)) as [->|Hne].
    + cbn [length]. f_equal. apply length_zero_iff_nil.
      destruct (filter (λ k', k' = k) keywords) as [|y l] eqn:Hf; [done|].
      assert (y ∈ filter (λ k', k' = k) keywords) as Hy by (rewrite Hf; left).
      apply list_elem_of_filter in Hy as [-> ?]. done.
    + apply IH; [done|]. apply elem_of_cons in Hk as [?|?]; congruence.
Qed.

Lemma bind_if_filter (m : string → bool) (l : list string) :
  l ≫= (λ f, if m f then [f] else []) = filter (λ f, m f) l.
Proof.
  induction l as [|f l IH]; [done|]. rewrite bind_cons, filter_cons, IH.
  destruct (m f) eqn:Hm.
  - by rewrite decide_True by done.
  - rewrite decide_False; [done|]. by intros ?.
Qed.

Section EngineMore.

Context (lower : string → string) (open_read : string → except string).

Local Abbreviation file_hits := (file_hits lower open_read).
Local Abbreviation file_matches := (file_matches lower open_read).
Local Abbreviation readable := (readable open_read).
Local Abbreviation scan_table := (scan_table lower open_read).
Local Abbreviation search_table := (search_table lower open_read).
Local Abbreviation process_files_chunk := (process_files_chunk lower open_read).
Local Abbreviation pool_step := (pool_step lower open_read).
Local Abbreviation pool_run := (pool_run lower open_read).
Local Abbreviation run_analysis := (run_analysis lower open_read).

(** ** What a worker records *)

Lemma file_hits_count (keywords : list string) (k f : string) :
  file_hits keywords k f =
    if file_matches k f
    then replicate (length (filter (λ k', k' = k) keywords)) f else [].
Proof.
  unfold file_hits, file_matches.
  destruct (open_read f) as [text|e]; [|done].
  induction keywords as [|k0 keywords IH].
  - by destruct (contains (lower k) (lower text)).
  - rewrite bind_cons, IH, filter_cons.
    destruct (decide (k0 = k)) as [->|Hne]; [|done].
    by destruct (contains (lower k) (lower text)).
Qed.

(** X7. A keyword that is repeated in the keyword list is recorded once
    per repetition: in the result of [process_files_chunk], the list of a
    keyword occurring [m] times holds, in chunk order, [m] copies of every
    occurrence of a matching file. *)
Theorem process_files_chunk_repeated_keyword (file_chunk keywords : list string)
    (k : string) :
  k ∈ keywords →
  dict_get (process_files_chunk file_chunk keywords) k =
    Some (file_chunk ≫=
            (λ f, if file_matches k f
                  then replicate (length (filter (λ k', k' = k) keywords)) f
                  else [])).
Proof.
  intros Hk. rewrite process_files_chunk_table, scan_table_get.
  rewrite decide_True by done. f_equal.
  apply list_bind_ext; [|done]. intros f. apply file_hits_count.
Qed.

(** X8. With pairwise distinct keywords, [process_files_chunk] returns, in
    the order of the keywords, each keyword with the files of the chunk
    that can be read and contain it, in chunk order and as often as they
    occur in the chunk. *)
Theorem process_files_chunk_filter (file_chunk keywords : list string) :
  NoDup keywords →
  process_files_chunk file_chunk keywords =
    map (λ k, (k, filter (λ f, file_matches k f) file_chunk)) keywords.
Proof.
  intros Hnd. rewrite process_files_chunk_table. unfold scan_table.
  rewrite empty_lists_order by done. apply map_ext_in. intros k Hk. f_equal.
  rewrite <- bind_if_filter. apply list_bind_ext; [|done]. intros f.
  rewrite file_hits_count, filter_eq_once; [done..|]. by apply list_elem_of_In.
Qed.

(** X9. The empty keyword matches every readable file: when [lower]
    maps the empty string to itself, its list in the result of
    [process_files_chunk] holds exactly the readable files of the chunk. *)
Theorem process_files_chunk_empty_keyword (file_chunk keywords : list string) :
  lower "" = "" → NoDup keywords → "" ∈ keywords →
  dict_get (process_files_chunk file_chunk keywords) "" =
    Some (filter (λ f, readable f) file_chunk).
Proof.
  intros Hlower Hnd Hk. rewrite process_files_chunk_filter by done.
  rewrite dict_get_tabulate, decide_True by done. f_equal.
  apply list_filter_iff. intros f.
  unfold file_matches, readable.
  destruct (open_read f); [|done]. by rewrite Hlower, contains_empty.
Qed.

(** X14. Scanning composes over concatenation: for every keyword, the
    list recorded for two chunks scanned as one is the list recorded for
    the first followed by the list recorded for the second. *)
Theorem process_files_chunk_concat (chunk1 chunk2 keywords : list string)
    (k : string) :
  k ∈ keywords →
  ∃ files1 files2,
    dict_get (process_files_chunk chunk1 keywords) k = Some files1 ∧
    dict_get (process_files_chunk chunk2 keywords) k = Some files2 ∧
    dict_get (process_files_chunk (chunk1 ++ chunk2) keywords) k =
      Some (files1 ++ files2).
Proof.
  intros Hk. rewrite !process_files_chunk_table, !scan_table_get.
  rewrite !decide_True by done. eexists _, _. split_and!; [done..|].
  by rewrite bind_app.
Qed.

(** ** What a search returns *)

Lemma elem_of_hits_filter (file_list keywords : list string) (k x : string) :
  k ∈ keywords →
  x ∈ file_list ≫= file_hits keywords k ↔
  x ∈ filter (λ f, file_matches k f) file_list.
Proof.
  intros Hk. rewrite list_elem_of_bind, list_elem_of_filter. split.
  - intros (f & Hx & Hf). rewrite file_hits_count in Hx.
    destruct (file_matches k f) eqn:Hm; [|by apply elem_of_nil in Hx].
    apply elem_of_replicate in Hx as [-> _]. by rewrite Hm.
  - intros [Hm Hx]. exists x. split; [|done]. rewrite file_hits_count.
    destruct (file_matches k x); [|done].
    apply elem_of_replicate. split; [done|].
    destruct (filter (λ k', k' = k) keywords) as [|y l] eqn:Hf; [|done].
    exfalso. eapply (filter_nil_not_elem_of _ keywords k); done.
Qed.

(** X10. End-to-end correctness. Under a known mode, with a positive
    worker count and every worker publishing, [run_analysis] returns a
    mapping whose keys are the keywords and in which every keyword has the
    sorted, duplicate-free list of the files of [file_list] that can be
    read and contain it; with pairwise distinct keywords the mapping lists
    them in the order given. *)
Theorem run_analysis_finds_matches (file_list keywords : list string)
    (num_workers : Z) (mode : string) (trace : list event)
    (outcome : except dict) :
  mode = "threading" ∨ mode = "multiprocessing" →
  (0 < num_workers)%Z →
  Crashed ∉ trace →
  run_analysis file_list keywords num_workers mode trace outcome →
  ∃ r, outcome = Return r ∧
       (∀ k, k ∈ dict_keys r ↔ k ∈ keywords) ∧
       (∀ k, k ∈ keywords →
          dict_get r k =
            Some (sorted_set (filter (λ f, file_matches k f) file_list))) ∧
       (NoDup keywords →
          r = map (λ k, (k, sorted_set (filter (λ f, file_matches k f) file_list)))
                  keywords).
Proof.
  intros Hmode Hpos Hfree Hrun.
  apply run_analysis_crash_free in Hrun; [|done..].
  exists (search_table file_list keywords num_workers).
  assert (∀ k, k ∈ keywords →
    sorted_set (if decide (0 < num_workers)%Z
                then file_list ≫= file_hits keywords k else []) =
    sorted_set (filter (λ f, file_matches k f) file_list)) as Hlist.
  { intros k Hk. rewrite decide_True by done. apply sorted_set_ext.
    intros x. by apply elem_of_hits_filter. }
  split_and!; [done| | |].
  - intros k. unfold search_table.
    rewrite dict_keys_tabulate. apply empty_lists_keys.
  - intros k Hk. rewrite search_table_get, decide_True by done.
    by rewrite Hlist.
  - intros Hnd. unfold search_table.
    rewrite empty_lists_order by done. apply map_ext_in. intros k Hk.
    f_equal. apply Hlist. by apply list_elem_of_In.
Qed.

(** X11. The outcome depends neither on the number of workers, as long as
    it is positive, nor on the mode: two searches over the same files and
    keywords in which every worker publishes end with the same outcome. *)
Theorem run_analysis_worker_count_independent (file_list keywords : list string)
    (n1 n2 : Z) (mode1 mode2 : string) (trace1 trace2 : list event)
    (outcome1 outcome2 : except dict) :
  mode1 = "threading" ∨ mode1 = "multiprocessing" →
  mode2 = "threading" ∨ mode2 = "multiprocessing" →
  (0 < n1)%Z → (0 < n2)%Z →
  Crashed ∉ trace1 → Crashed ∉ trace2 →
  run_analysis file_list keywords n1 mode1 trace1 outcome1 →
  run_analysis file_list keywords n2 mode2 trace2 outcome2 →
  outcome1 = outcome2.
Proof.
  intros Hm1 Hm2 Hn1 Hn2 Hf1 Hf2 Hrun1 Hrun2.
  apply run_analysis_crash_free in Hrun1; [|done..].
  apply run_analysis_crash_free in Hrun2; [|done..].
  subst. unfold search_table.
  destruct (decide (0 < n1)%Z); [|lia]. destruct (decide (0 < n2)%Z); [|lia].
  done.
Qed.

(** X12. Nothing is invented, even when workers crash: under a known mode
    every run returns a mapping, and every file it lists under a keyword
    is a file of [file_list] that can be read and contains that keyword.
    Crashes can only make files go missing. *)
Theorem run_analysis_sound (file_list keywords : list string)
    (num_workers : Z) (mode : string) (trace : list event)
    (outcome : except dict) :
  mode = "threading" ∨ mode = "multiprocessing" →
  run_analysis file_list keywords num_workers mode trace outcome →
  ∃ r, outcome = Return r ∧
       ∀ k files f, dict_get r k = Some files → f ∈ files →
         k ∈ keywords ∧ f ∈ file_list ∧ file_matches k f = true.
Proof.
  intros Hmode Hrun. apply run_analysis_outcome in Hrun
    as (chunks & pub & cr & Hchunks & Hperm & _ & _ & _ & ->); [|done].
  eexists. split; [done|]. intros k files f.
  rewrite merged_table_get. case_decide as Hk; [|done]. intros [= <-] Hf.
  rewrite elem_of_sorted_set, elem_of_worker_files in Hf.
  destruct Hf as (_ & c & f' & Hc & Hf' & Hhit).
  assert (c ∈ chunks) as Hcc by (rewrite Hperm, elem_of_app; by left).
  destruct (proj1 (make_chunks_elem_of _ _ _ Hchunks f')) as [_ Hin];
    [by exists c|].
  rewrite file_hits_count in Hhit.
  destruct (file_matches k f') eqn:Hm; [|by apply elem_of_nil in Hhit].
  apply elem_of_replicate in Hhit as [-> _]. done.
Qed.

(** ** Accounting of the workers *)

Lemma pool_run_spawned (keywords : list string) (s s' : pool) (trace : list event) :
  pool_run keywords s trace s' →
  length (to_start s) = count_event Spawned trace + length (to_start s').
Proof.
  induction 1 as [s|s1 ev s2 evs s3 Hstep Hrun IH]; [done|].
  rewrite count_event_cons. destruct Hstep; cbn [to_start length] in *.
  - rewrite decide_True by done. lia.
  - by rewrite decide_False.
  - by rewrite decide_False.
Qed.

(** X13. Under a known mode every run starts exactly [max num_workers 0]
    workers, each of them terminates before the merge, either publishing
    or crashing, and nothing else happens in the pool: the trace holds
    that many [Spawned] events and as many [Published] or [Crashed] ones. *)
Theorem run_analysis_accounting (file_list keywords : list string)
    (num_workers : Z) (mode : string) (trace : list event)
    (outcome : except dict) :
  mode = "threading" ∨ mode = "multiprocessing" →
  run_analysis file_list keywords num_workers mode trace outcome →
  count_event Spawned trace = Z.to_nat num_workers ∧
  count_event Published trace + count_event Crashed trace =
    Z.to_nat num_workers ∧
  length trace = 2 * Z.to_nat num_workers.
Proof.
  intros [backend Hmode]%select_backend_known Hrun.
  destruct (make_chunks_total file_list num_workers) as (chunks & Hchunks & Hlen).
  destruct Hrun as [e He|backend' e _ He|backend' chunks' trace q _ Hchunks' Hrun];
    [congruence..|].
  assert (chunks' = chunks) as -> by congruence.
  pose proof (pool_run_spawned _ _ _ _ Hrun) as Hsp.
  apply pool_run_inv in Hrun as (pub & cr & _ & Hpend & Hpub & Hcr).
  unfold pending in Hpend. simpl in Hsp, Hpend. rewrite app_nil_r in Hpend.
  apply Permutation_length in Hpend. rewrite length_app in Hpend.
  rewrite (count_events_length trace). lia.
Qed.

End EngineMore.

(** ** Instances of the further properties *)

Lemma keywords_distinct : NoDup ["alpha"; "beta"].
Proof. apply (bool_decide_unpack _). vm_compute. exact I. Qed.

Lemma search_one_worker :
  run_analysis ascii_lower sample_files ["a.txt"; "b.txt"; "c.txt"]
    ["alpha"; "beta"] 1 "multiprocessing" (in_order_trace 1)
    (Return [("alpha", ["a.txt"; "b.txt"]); ("beta", ["b.txt"])]).
Proof.
  pose proof (run_analysis_in_order ascii_lower sample_files
                ["a.txt"; "b.txt"; "c.txt"] ["alpha"; "beta"] 1
                "multiprocessing") as H.
  vm_compute search_table in H. apply H. by right.
Qed.

Lemma chunks_balanced_witness :
  ((0 < 2)%Z ∧
   make_chunks ["f0"; "f1"; "f2"; "f3"; "f4"] 2 =
     Return [["f0"; "f2"; "f4"]; ["f1"; "f3"]]) ∧
  (∀ j c, [["f0"; "f2"; "f4"]; ["f1"; "f3"]] !! j = Some c →
     length c =
       (length ["f0"; "f1"; "f2"; "f3"; "f4"] + Z.to_nat 2 - 1 - j) / Z.to_nat 2) ∧
  (∀ j1 j2 c1 c2, j1 ≤ j2 →
     [["f0"; "f2"; "f4"]; ["f1"; "f3"]] !! j1 = Some c1 →
     [["f0"; "f2"; "f4"]; ["f1"; "f3"]] !! j2 = Some c2 →
     length c2 ≤ length c1 ≤ length c2 + 1).
Proof.
  split; [split; [lia|reflexivity]|].
  apply (chunks_balanced ["f0"; "f1"; "f2"; "f3"; "f4"] 2); [lia|reflexivity].
Defined.

Lemma merge_results_key_order_witness :
  (NoDup ["alpha"; "beta"] ∧
   merge_results [[("beta", ["b.txt"])]; [("alpha", ["a.txt"])]]
                 ["alpha"; "beta"] =
     Return [("alpha", ["a.txt"]); ("beta", ["b.txt"])]) ∧
  dict_keys [("alpha", ["a.txt"]); ("beta", ["b.txt"])] = ["alpha"; "beta"].
Proof.
  split; [split; [exact keywords_distinct|vm_compute; reflexivity]|].
  apply (merge_results_key_order
           [[("beta", ["b.txt"])]; [("alpha", ["a.txt"])]] ["alpha"; "beta"]).
  - exact keywords_distinct.
  - vm_compute. reflexivity.
Defined.

Lemma merge_results_idempotent_witness :
  merge_results [[("alpha", ["b.txt"; "a.txt"])]; [("alpha", ["a.txt"])]]
                ["alpha"; "beta"] =
    Return [("alpha", ["a.txt"; "b.txt"]); ("beta", [])] ∧
  merge_results [[("alpha", ["a.txt"; "b.txt"]); ("beta", [])]]
                ["alpha"; "beta"] =
    Return [("alpha", ["a.txt"; "b.txt"]); ("beta", [])].
Proof.
  split; [vm_compute; reflexivity|].
  apply (merge_results_idempotent
           [[("alpha", ["b.txt"; "a.txt"])]; [("alpha", ["a.txt"])]]
           ["alpha"; "beta"]).
  vm_compute. reflexivity.
Defined.

Lemma merge_results_staged_witness :
  Forall2 (λ ps r, merge_results ps ["alpha"] = Return r)
    [[[("alpha", ["c.txt"])]; [("alpha", ["a.txt"])]]; [[("alpha", ["b.txt"])]]]
    [[("alpha", ["a.txt"; "c.txt"])]; [("alpha", ["b.txt"])]] ∧
  merge_results [[("alpha", ["a.txt"; "c.txt"])]; [("alpha", ["b.txt"])]]
                ["alpha"] =
  merge_results
    (concat [[[("alpha", ["c.txt"])]; [("alpha", ["a.txt"])]];
             [[("alpha", ["b.txt"])]]])
    ["alpha"].
Proof.
  assert (Forall2 (λ ps r, merge_results ps ["alpha"] = Return r)
    [[[("alpha", ["c.txt"])]; [("alpha", ["a.txt"])]]; [[("alpha", ["b.txt"])]]]
    [[("alpha", ["a.txt"; "c.txt"])]; [("alpha", ["b.txt"])]]) as Hall.
  { repeat constructor; vm_compute; reflexivity. }
  split; [exact Hall|].
  apply (merge_results_staged _ _ ["alpha"] Hall).
Defined.

Lemma merge_results_set_of_partials_witness :
  (∀ res, res ∈ [[("alpha", ["a.txt"])]; [("alpha", ["a.txt"])]] ↔
          res ∈ [[("alpha", ["a.txt"])]]) ∧
  ∀ r,
    merge_results [[("alpha", ["a.txt"])]; [("alpha", ["a.txt"])]] ["alpha"] =
      Return r ↔
    merge_results [[("alpha", ["a.txt"])]] ["alpha"] = Return r.
Proof.
  assert (∀ res : dict, res ∈ [[("alpha", ["a.txt"])]; [("alpha", ["a.txt"])]] ↔
                 res ∈ [[("alpha", ["a.txt"])]]) as Hsame.
  { intros res. rewrite !elem_of_cons. rewrite elem_of_nil. tauto. }
  split; [exact Hsame|].
  apply (merge_results_set_of_partials _ _ ["alpha"] Hsame).
Defined.

Lemma process_files_chunk_repeated_keyword_witness :
  "alpha" ∈ ["alpha"; "beta"; "alpha"] ∧
  dict_get (process_files_chunk ascii_lower sample_files
              ["a.txt"; "c.txt"] ["alpha"; "beta"; "alpha"]) "alpha" =
    Some (["a.txt"; "c.txt"] ≫=
            (λ f, if file_matches ascii_lower sample_files "alpha" f
                  then replicate
                         (length (filter (λ k', k' = "alpha")
                                         ["alpha"; "beta"; "alpha"])) f
                  else [])).
Proof.
  split; [by left|].
  apply (process_files_chunk_repeated_keyword ascii_lower sample_files
           ["a.txt"; "c.txt"] ["alpha"; "beta"; "alpha"] "alpha").
  by left.
Defined.

Lemma process_files_chunk_filter_witness :
  NoDup ["alpha"; "beta"] ∧
  process_files_chunk ascii_lower sample_files
    ["b.txt"; "locked.txt"; "a.txt"] ["alpha"; "beta"] =
  map (λ k, (k, filter (λ f, file_matches ascii_lower sample_files k f)
                       ["b.txt"; "locked.txt"; "a.txt"]))
      ["alpha"; "beta"].
Proof.
  split; [exact keywords_distinct|].
  apply (process_files_chunk_filter ascii_lower sample_files
           ["b.txt"; "locked.txt"; "a.txt"] ["alpha"; "beta"]).
  exact keywords_distinct.
Defined.

Lemma process_files_chunk_empty_keyword_witness :
  (ascii_lower "" = "" ∧ NoDup [""] ∧ "" ∈ [""]) ∧
  dict_get (process_files_chunk ascii_lower sample_files
              ["a.txt"; "locked.txt"; "c.txt"] [""]) "" =
    Some (filter (λ f, readable sample_files f)
                 ["a.txt"; "locked.txt"; "c.txt"]).
Proof.
  assert (NoDup [""]) as Hnd by apply NoDup_singleton.
  split; [split_and!; [reflexivity|exact Hnd|by left]|].
  apply (process_files_chunk_empty_keyword ascii_lower sample_files
           ["a.txt"; "locked.txt"; "c.txt"] [""]);
    [reflexivity|exact Hnd|by left].
Defined.

Lemma process_files_chunk_concat_witness :
  "alpha" ∈ ["alpha"; "beta"] ∧
  ∃ files1 files2,
    dict_get (process_files_chunk ascii_lower sample_files
                ["b.txt"] ["alpha"; "beta"]) "alpha" = Some files1 ∧
    dict_get (process_files_chunk ascii_lower sample_files
                ["c.txt"; "a.txt"] ["alpha"; "beta"]) "alpha" = Some files2 ∧
    dict_get (process_files_chunk ascii_lower sample_files
                (["b.txt"] ++ ["c.txt"; "a.txt"]) ["alpha"; "beta"]) "alpha" =
      Some (files1 ++ files2).
Proof.
  split; [by left|].
  apply (process_files_chunk_concat ascii_lower sample_files
           ["b.txt"] ["c.txt"; "a.txt"] ["alpha"; "beta"] "alpha").
  by left.
Defined.

Lemma run_analysis_finds_matches_witness :
  (("threading" = "threading" ∨ "threading" = "multiprocessing") ∧
   (0 < 2)%Z ∧ (Crashed ∉ in_order_trace 2) ∧
   run_analysis ascii_lower sample_files ["a.txt"; "b.txt"; "c.txt"]
     ["alpha"; "beta"] 2 "threading" (in_order_trace 2)
     (Return [("alpha", ["a.txt"; "b.txt"]); ("beta", ["b.txt"])])) ∧
  ∃ r, @Return dict [("alpha", ["a.txt"; "b.txt"]); ("beta", ["b.txt"])] =
         Return r ∧
       (∀ k, k ∈ dict_keys r ↔ k ∈ ["alpha"; "beta"]) ∧
       (∀ k, k ∈ ["alpha"; "beta"] →
          dict_get r k =
            Some (sorted_set
                    (filter (λ f, file_matches ascii_lower sample_files k f)
                            ["a.txt"; "b.txt"; "c.txt"]))) ∧
       (NoDup ["alpha"; "beta"] →
          r = map (λ k, (k, sorted_set
                              (filter (λ f, file_matches ascii_lower
                                              sample_files k f)
                                      ["a.txt"; "b.txt"; "c.txt"])))
                  ["alpha"; "beta"]).
Proof.
  split.
  - split_and!; [by left|lia|apply in_order_trace_crash_free|].
    exact search_three_files.
  - apply (run_analysis_finds_matches ascii_lower sample_files
             ["a.txt"; "b.txt"; "c.txt"] ["alpha"; "beta"] 2 "threading"
             (in_order_trace 2)).
    + by left.
    + lia.
    + apply in_order_trace_crash_free.
    + exact search_three_files.
Defined.

Lemma run_analysis_worker_count_independent_witness :
  (("threading" = "threading" ∨ "threading" = "multiprocessing") ∧
   ("multiprocessing" = "threading" ∨ "multiprocessing" = "multiprocessing") ∧
   (0 < 2)%Z ∧ (0 < 1)%Z ∧
   (Crashed ∉ in_order_trace 2) ∧ (Crashed ∉ in_order_trace 1) ∧
   run_analysis ascii_lower sample_files ["a.txt"; "b.txt"; "c.txt"]
     ["alpha"; "beta"] 2 "threading" (in_order_trace 2)
     (Return [("alpha", ["a.txt"; "b.txt"]); ("beta", ["b.txt"])]) ∧
   run_analysis ascii_lower sample_files ["a.txt"; "b.txt"; "c.txt"]
     ["alpha"; "beta"] 1 "multiprocessing" (in_order_trace 1)
     (Return [("alpha", ["a.txt"; "b.txt"]); ("beta", ["b.txt"])])) ∧
  @Return dict [("alpha", ["a.txt"; "b.txt"]); ("beta", ["b.txt"])] =
    Return [("alpha", ["a.txt"; "b.txt"]); ("beta", ["b.txt"])].
Proof.
  split.
  - split_and!; [by left|by right|lia|lia|apply in_order_trace_crash_free..| |].
    + exact search_three_files.
    + exact search_one_worker.
  - apply (run_analysis_worker_count_independent ascii_lower sample_files
             ["a.txt"; "b.txt"; "c.txt"] ["alpha"; "beta"] 2 1
             "threading" "multiprocessing" (in_order_trace 2) (in_order_trace 1)).
    + by left.
    + by right.
    + lia.
    + lia.
    + apply in_order_trace_crash_free.
    + apply in_order_trace_crash_free.
    + exact search_three_files.
    + exact search_one_worker.
Defined.

Lemma run_analysis_sound_witness :
  (("threading" = "threading" ∨ "threading" = "multiprocessing") ∧
   run_analysis ascii_lower sample_files ["a.txt"; "b.txt"; "c.txt"]
     ["alpha"; "beta"] 2 "threading" (in_order_trace 2)
     (Return [("alpha", ["a.txt"; "b.txt"]); ("beta", ["b.txt"])])) ∧
  ∃ r, @Return dict [("alpha", ["a.txt"; "b.txt"]); ("beta", ["b.txt"])] =
         Return r ∧
       ∀ k files f, dict_get r k = Some files → f ∈ files →
         k ∈ ["alpha"; "beta"] ∧ f ∈ ["a.txt"; "b.txt"; "c.txt"] ∧
         file_matches ascii_lower sample_files k f = true.
Proof.
  split; [split; [by left|exact search_three_files]|].
  apply (run_analysis_sound ascii_lower sample_files
           ["a.txt"; "b.txt"; "c.txt"] ["alpha"; "beta"] 2 "threading"
           (in_order_trace 2)).
  - by left.
  - exact search_three_files.
Defined.

Lemma run_analysis_accounting_witness :
  (("threading" = "threading" ∨ "threading" = "multiprocessing") ∧
   run_analysis ascii_lower sample_files ["a.txt"; "b.txt"; "c.txt"]
     ["alpha"; "beta"] 2 "threading" (in_order_trace 2)
     (Return [("alpha", ["a.txt"; "b.txt"]); ("beta", ["b.txt"])])) ∧
  count_event Spawned (in_order_trace 2) = Z.to_nat 2 ∧
  count_event Published (in_order_trace 2) +
    count_event Crashed (in_order_trace 2) = Z.to_nat 2 ∧
  length (in_order_trace 2) = 2 * Z.to_nat 2.
Proof.
  split; [split; [by left|exact search_three_files]|].
  apply (run_analysis_accounting ascii_lower sample_files
           ["a.txt"; "b.txt"; "c.txt"] ["alpha"; "beta"] 2 "threading"
           (in_order_trace 2)
           (Return [("alpha", ["a.txt"; "b.txt"]); ("beta", ["b.txt"])])).
  - by left.
  - exact search_three_files.
Defined.

(** * The limit of the pipe under [multiprocessing] *)

Section BackendCorrect.

Context (lower : string → string) (open_read : string → except string)
        (pipe_capacity : N) (message_size : dict → N).

Local Abbreviation file_hits := (file_hits lower open_read).
Local Abbreviation scan_table := (scan_table lower open_read).
Local Abbreviation search_table := (search_table lower open_read).
Local Abbreviation process_files_chunk := (process_files_chunk lower open_read).
Local Abbreviation generic_worker := (generic_worker lower open_read).
Local Abbreviation pool_step := (pool_step lower open_read).
Local Abbreviation pool_run := (pool_run lower open_read).
Local Abbreviation run_analysis := (run_analysis lower open_read).
Local Abbreviation pipe_load := (pipe_load message_size).
Local Abbreviation can_exit := (can_exit pipe_capacity message_size).
Local Abbreviation backend_step :=
  (backend_step lower open_read pipe_capacity message_size).
Local Abbreviation backend_run :=
  (backend_run lower open_read pipe_capacity message_size).
Local Abbreviation run_analysis_backend :=
  (run_analysis_backend lower open_read pipe_capacity message_size).

Lemma pipe_load_app (q1 q2 : list dict) :
  pipe_load (q1 ++ q2) = (pipe_load q1 + pipe_load q2)%N.
Proof.
  unfold pipe_load. induction q1 as [|d q1 IH]; simpl; [done|].
  rewrite IH. lia.
Qed.

Lemma pipe_load_cons (d : dict) (q : list dict) :
  pipe_load (d :: q) = (message_size d + pipe_load q)%N.
Proof. done. Qed.

Lemma pipe_load_nil : pipe_load [] = 0%N.
Proof. done. Qed.

Lemma pipe_load_Permutation (q1 q2 : list dict) :
  q1 ≡ₚ q2 → pipe_load q1 = pipe_load q2.
Proof.
  unfold pipe_load. induction 1; simpl; [done|congruence|lia|congruence].
Qed.

(** ** Runs under a backend are runs of the pool *)

Lemma backend_step_pool (queue : queue_class) (keywords : list string)
    (s s' : pool) (ev : event) :
  backend_step queue keywords s ev s' → pool_step keywords s ev s'.
Proof. destruct 1; constructor. Qed.

Lemma backend_run_pool (queue : queue_class) (keywords : list string)
    (s s' : pool) (trace : list event) :
  backend_run queue keywords s trace s' → pool_run keywords s trace s'.
Proof.
  induction 1 as [s|s1 ev s2 evs s3 Hstep _ IH]; [constructor|].
  eapply run_step; [by eapply backend_step_pool|done].
Qed.

Lemma run_analysis_backend_run (file_list keywords : list string)
    (num_workers : Z) (mode : string) (trace : list event)
    (outcome : except dict) :
  run_analysis_backend file_list keywords num_workers mode trace outcome →
  run_analysis file_list keywords num_workers mode trace outcome.
Proof.
  destruct 1 as [e He|classes e Hc He|W Q name chunks trace q Hc Hchunks Hrun].
  - by apply run_unknown_mode.
  - by eapply run_bad_slice.
  - eapply run_joined; [done..|]. by eapply backend_run_pool.
Qed.

Lemma pool_run_threads (keywords : list string) (s s' : pool)
    (trace : list event) :
  pool_run keywords s trace s' → backend_run ThreadQueue keywords s trace s'.
Proof.
  induction 1 as [s|s1 ev s2 evs s3 Hstep _ IH]; [constructor|].
  eapply backend_next; [|done]. destruct Hstep; by constructor.
Qed.

Lemma run_analysis_threading (file_list keywords : list string)
    (num_workers : Z) (trace : list event) (outcome : except dict) :
  run_analysis file_list keywords num_workers "threading" trace outcome →
  run_analysis_backend file_list keywords num_workers "threading" trace outcome.
Proof.
  destruct 1 as [e He|classes e Hc He|classes chunks trace q Hc Hchunks Hrun].
  - by apply backend_unknown_mode.
  - by eapply backend_bad_slice.
  - eapply (backend_joined _ _ _ _ _ _ _ _ Thread ThreadQueue "Threading");
      [done..|]. by apply pool_run_threads.
Qed.

Lemma backend_run_app (queue : queue_class) (keywords : list string)
    (s1 s2 s3 : pool) (t1 t2 : list event) :
  backend_run queue keywords s1 t1 s2 → backend_run queue keywords s2 t2 s3 →
  backend_run queue keywords s1 (t1 ++ t2) s3.
Proof.
  induction 1 as [s|s1 ev s2 evs s2' Hstep Hrun IH]; intros Hrest; [done|].
  simpl. eapply backend_next; [done|]. by apply IH.
Qed.

(** ** What the pipe allows *)

Lemma backend_run_load (keywords : list string) (s s' : pool)
    (trace : list event) :
  backend_run ProcessQueue keywords s trace s' →
  (pipe_load (results_queue s) ≤ pipe_capacity)%N →
  (pipe_load (results_queue s') ≤ pipe_capacity)%N.
Proof.
  induction 1 as [s|s1 ev s2 evs s3 Hstep _ IH]; intros Hload; [done|].
  apply IH. destruct Hstep as [| rest pre chunk post q Hexit |]; simpl in *.
  - done.
  - unfold generic_worker, can_exit in *.
    rewrite pipe_load_app, pipe_load_cons, pipe_load_nil. lia.
  - done.
Qed.

Lemma backend_spawn_all (queue : queue_class) (keywords : list string)
    (chunks : list (list string)) :
  ∀ run q, backend_run queue keywords (Pool chunks run q)
             (replicate (length chunks) Spawned) (Pool [] (run ++ chunks) q).
Proof.
  induction chunks as [|c chunks IH]; intros run q; simpl.
  - rewrite app_nil_r. constructor.
  - eapply backend_next; [constructor|].
    replace (run ++ c :: chunks) with ((run ++ [c]) ++ chunks)
      by (by rewrite <- app_assoc).
    apply IH.
Qed.

Lemma backend_publish_all (queue : queue_class) (keywords : list string)
    (run : list (list string)) :
  ∀ q,
    (queue = ProcessQueue →
     (pipe_load q + pipe_load (map (λ c, process_files_chunk c keywords) run)
        ≤ pipe_capacity)%N) →
    backend_run queue keywords (Pool [] run q)
      (replicate (length run) Published)
      (Pool [] [] (q ++ map (λ c, process_files_chunk c keywords) run)).
Proof.
  induction run as [|c run IH]; intros q Hroom; simpl.
  - rewrite app_nil_r. constructor.
  - eapply backend_next.
    + apply (backend_publish _ _ _ _ queue keywords [] [] c run q).
      destruct queue; [done|]. specialize (Hroom eq_refl).
      rewrite map_cons, pipe_load_cons in Hroom. unfold can_exit. lia.
    + simpl.
      replace (q ++ process_files_chunk c keywords ::
                 map (λ c, process_files_chunk c keywords) run)
        with ((q ++ [process_files_chunk c keywords]) ++
                 map (λ c, process_files_chunk c keywords) run)
        by (by rewrite <- app_assoc).
      apply IH. intros ->. specialize (Hroom eq_refl).
      rewrite map_cons, pipe_load_cons in Hroom.
      rewrite pipe_load_app, pipe_load_cons, pipe_load_nil. lia.
Qed.

Lemma run_analysis_backend_crash_free (file_list keywords : list string)
    (num_workers : Z) (mode : string) (trace : list event)
    (outcome : except dict) :
  mode = "threading" ∨ mode = "multiprocessing" →
  Crashed ∉ trace →
  run_analysis_backend file_list keywords num_workers mode trace outcome →
  outcome = Return (search_table file_list keywords num_workers).
Proof.
  intros Hmode Hfree Hrun%run_analysis_backend_run.
  by eapply run_analysis_crash_free.
Qed.

(** The search completes, with the workers publishing in the order they
    were started, under "threading" always and under "multiprocessing"
    when the results of all the workers fit in the pipe together. *)
Lemma run_analysis_backend_in_order (file_list keywords : list string)
    (num_workers : Z) (mode : string) (chunks : list (list string)) :
  mode = "threading" ∨ mode = "multiprocessing" →
  make_chunks file_list num_workers = Return chunks →
  (mode = "multiprocessing" →
   (pipe_load (map (λ c, process_files_chunk c keywords) chunks)
      ≤ pipe_capacity)%N) →
  run_analysis_backend file_list keywords num_workers mode
    (in_order_trace num_workers)
    (Return (search_table file_list keywords num_workers)).
Proof.
  intros Hmode Hchunks Hroom.
  destruct (make_chunks_total file_list num_workers) as (chunks' & Hc' & Hlen).
  assert (chunks' = chunks) as -> by congruence.
  assert (∃ W Q name, select_backend mode = Return (W, Q, name) ∧
                      (Q = ProcessQueue → mode = "multiprocessing"))
    as (W & Q & name & Hsel & HQ).
  { destruct Hmode as [->| ->]; eexists _, _, _; split; done. }
  assert (run_analysis_backend file_list keywords num_workers mode
            (in_order_trace num_workers)
            (merge_results
               (drain (map (λ c, process_files_chunk c keywords) chunks) [])
               keywords)) as Hrun.
  { eapply backend_joined; [done..|]. unfold in_order_trace. rewrite <- Hlen.
    eapply backend_run_app; [apply backend_spawn_all|].
    apply (backend_publish_all Q keywords chunks []).
    intros HP. specialize (Hroom (HQ HP)). rewrite pipe_load_nil. lia. }
  pose proof (run_analysis_backend_crash_free _ _ _ _ _ _ Hmode
                (in_order_trace_crash_free num_workers) Hrun) as Heq.
  by rewrite Heq in Hrun.
Qed.

(** Under "multiprocessing" a run in which every worker publishes can only
    end if the results of all the workers fit in the pipe together. *)
Lemma multiprocessing_needs_room (file_list keywords : list string)
    (num_workers : Z) (chunks : list (list string)) (trace : list event)
    (outcome : except dict) :
  make_chunks file_list num_workers = Return chunks →
  Crashed ∉ trace →
  run_analysis_backend file_list keywords num_workers "multiprocessing"
                       trace outcome →
  (pipe_load (map (λ c, process_files_chunk c keywords) chunks)
     ≤ pipe_capacity)%N.
Proof.
  intros Hchunks Hfree Hrun.
  destruct Hrun as [e He|classes e Hc He|W Q name chunks' trace q Hsel Hc' Hrun].
  - done.
  - congruence.
  - assert (chunks' = chunks) as -> by congruence.
    assert (Q = ProcessQueue) as -> by (by injection Hsel).
    pose proof (backend_run_load _ _ _ _ Hrun) as Hload. simpl in Hload.
    apply backend_run_pool, pool_run_inv in Hrun
      as (pub & cr & Hq & Hpend & _ & Hcr).
    rewrite count_event_zero in Hcr by done.
    apply nil_length_inv in Hcr as ->.
    unfold pending in Hpend. simpl in Hq, Hpend. rewrite !app_nil_r in Hpend.
    subst q. rewrite (pipe_load_Permutation _ _ (fmap_Permutation _ _ _ Hpend)).
    apply Hload. lia.
Qed.

(** When a search ends under both models with every worker publishing,
    the two outcomes are the same. *)
Lemma backends_agree (file_list keywords : list string) (num_workers : Z)
    (trace1 trace2 : list event) (outcome1 outcome2 : except dict) :
  Crashed ∉ trace1 → Crashed ∉ trace2 →
  run_analysis_backend file_list keywords num_workers "threading"
                       trace1 outcome1 →
  run_analysis_backend file_list keywords num_workers "multiprocessing"
                       trace2 outcome2 →
  outcome1 = outcome2.
Proof.
  intros Hf1 Hf2 Hrun1 Hrun2.
  apply run_analysis_backend_crash_free in Hrun1; [|auto|done].
  apply run_analysis_backend_crash_free in Hrun2; [|auto|done].
  congruence.
Qed.

(** C6. A file that cannot be opened or read aborts nothing and changes
    nothing else. Scanning a chunk that contains it gives the same result
    as scanning the chunk without it; in that result every keyword has a
    list, the unreadable file is in none, and every other file of the chunk
    that can be read and contains the keyword is in the keyword's list.
    For every worker count, the search over a list that contains the file
    completes under "threading", and under "multiprocessing" whenever the
    results of the workers fit in the pipe; every run in which all the
    workers publish ends with one and the same mapping, which is also the
    mapping of the search over the list without the file; that mapping
    never lists the unreadable file and, when the worker count is
    positive, lists every other file that can be read and contains the
    keyword. *)
Theorem unreadable_file_skipped (pre post keywords : list string)
    (file : string) (e : exn) :
  open_read file = Raise e →
  process_files_chunk (pre ++ file :: post) keywords =
    process_files_chunk (pre ++ post) keywords ∧
  (∀ k, k ∈ keywords →
     ∃ files,
       dict_get (process_files_chunk (pre ++ file :: post) keywords) k =
         Some files ∧
       file ∉ files ∧
       ∀ f text, f ∈ pre ++ post → open_read f = Return text →
         contains (lower k) (lower text) = true → f ∈ files) ∧
  ∀ num_workers,
    ∃ r,
      run_analysis_backend (pre ++ file :: post) keywords num_workers
        "threading" (in_order_trace num_workers) (Return r) ∧
      (∀ chunks,
         make_chunks (pre ++ file :: post) num_workers = Return chunks →
         (pipe_load (map (λ c, process_files_chunk c keywords) chunks)
            ≤ pipe_capacity)%N →
         run_analysis_backend (pre ++ file :: post) keywords num_workers
           "multiprocessing" (in_order_trace num_workers) (Return r)) ∧
      (∀ mode trace outcome,
         mode = "threading" ∨ mode = "multiprocessing" →
         Crashed ∉ trace →
         run_analysis_backend (pre ++ file :: post) keywords num_workers mode
                              trace outcome →
         outcome = Return r) ∧
      (∀ mode trace outcome,
         mode = "threading" ∨ mode = "multiprocessing" →
         Crashed ∉ trace →
         run_analysis_backend (pre ++ post) keywords num_workers mode
                              trace outcome →
         outcome = Return r) ∧
      (∀ k, k ∈ keywords →
         ∃ files,
           dict_get r k = Some files ∧
           file ∉ files ∧
           ((0 < num_workers)%Z →
            ∀ f text, f ∈ pre ++ post → open_read f = Return text →
              contains (lower k) (lower text) = true → f ∈ files)).
Proof.
  intros Hread.
  assert (∀ k f, f ∈ (pre ++ file :: post) ≫= file_hits keywords k → f ≠ file)
    as Hnot.
  { intros k f Hin ->. apply list_elem_of_bind in Hin as (f' & Hhit & _).
    apply elem_of_file_hits in Hhit as (<- & _ & text & Htext & _). congruence. }
  assert (∀ k f text, k ∈ keywords → f ∈ pre ++ post →
            open_read f = Return text →
            contains (lower k) (lower text) = true →
            f ∈ (pre ++ file :: post) ≫= file_hits keywords k) as Hrec.
  { intros k f text Hk Hf Htext Hsub. apply list_elem_of_bind. exists f. split.
    - apply elem_of_file_hits. split_and!; [done..|]. by exists text.
    - rewrite elem_of_app, elem_of_cons. rewrite elem_of_app in Hf. tauto. }
  split_and!.
  - by eapply process_files_chunk_app.
  - intros k Hk. exists ((pre ++ file :: post) ≫= file_hits keywords k).
    rewrite process_files_chunk_table, scan_table_get, decide_True by done.
    split_and!; [done| |].
    + intros Hin. by apply (Hnot k file).
    + intros f text. by apply Hrec.
  - intros num_workers.
    exists (search_table (pre ++ file :: post) keywords num_workers).
    destruct (make_chunks_total (pre ++ file :: post) num_workers)
      as (chunks0 & Hchunks0 & _).
    split_and!.
    + eapply run_analysis_backend_in_order; [by left|done|done].
    + intros chunks Hchunks Hroom.
      eapply run_analysis_backend_in_order; [by right|done|done].
    + intros mode trace outcome Hmode Hfree Hrun.
      by eapply run_analysis_backend_crash_free.
    + intros mode trace outcome Hmode Hfree Hrun.
      rewrite (search_table_unreadable _ _ _ _ _ _ _ _ Hread).
      by eapply run_analysis_backend_crash_free.
    + intros k Hk. eexists. rewrite search_table_get, decide_True by done.
      split_and!; [done| |].
      * rewrite elem_of_sorted_set. case_decide; [|apply not_elem_of_nil].
        intros Hin. by apply (Hnot k file).
      * intros Hpos f text Hf Htext Hsub.
        rewrite elem_of_sorted_set, decide_True by done. by eapply Hrec.
Qed.

End BackendCorrect.

(** ** Instances and the failing input *)

Example scan_with_locked_file :
  process_files_chunk ascii_lower sample_files
    ["a.txt"; "locked.txt"; "b.txt"] ["alpha"; "beta"] =
    [("alpha", ["a.txt"; "b.txt"]); ("beta", ["b.txt"])].
Proof. vm_compute. reflexivity. Qed.

Lemma unreadable_file_skipped_witness :
  sample_files "locked.txt" = Raise (IOError "Permission denied") ∧
  process_files_chunk ascii_lower sample_files
    (["a.txt"] ++ "locked.txt" :: ["b.txt"]) ["alpha"; "beta"] =
  process_files_chunk ascii_lower sample_files
    (["a.txt"] ++ ["b.txt"]) ["alpha"; "beta"] ∧
  (∀ k, k ∈ ["alpha"; "beta"] →
     ∃ files,
       dict_get (process_files_chunk ascii_lower sample_files
                   (["a.txt"] ++ "locked.txt" :: ["b.txt"]) ["alpha"; "beta"]) k =
         Some files ∧
       "locked.txt" ∉ files ∧
       ∀ f text, f ∈ ["a.txt"] ++ ["b.txt"] → sample_files f = Return text →
         contains (ascii_lower k) (ascii_lower text) = true → f ∈ files) ∧
  ∃ r,
    run_analysis_backend ascii_lower sample_files 65536 payload_bytes
      (["a.txt"] ++ "locked.txt" :: ["b.txt"]) ["alpha"; "beta"] 2
      "threading" (in_order_trace 2) (Return r) ∧
    ∀ k, k ∈ ["alpha"; "beta"] →
      ∃ files,
        dict_get r k = Some files ∧
        "locked.txt" ∉ files ∧
        ((0 < 2)%Z →
         ∀ f text, f ∈ ["a.txt"] ++ ["b.txt"] → sample_files f = Return text →
           contains (ascii_lower k) (ascii_lower text) = true → f ∈ files).
Proof.
  split; [reflexivity|].
  destruct (unreadable_file_skipped ascii_lower sample_files 65536
              payload_bytes ["a.txt"] ["b.txt"] ["alpha"; "beta"] "locked.txt"
              (IOError "Permission denied") eq_refl)
    as (Heq & Hchunk & Hsearch).
  split; [exact Heq|]. split; [exact Hchunk|].
  destruct (Hsearch 2%Z) as (r & Hrun & _ & _ & _ & Hkeys).
  exists r. split; [exact Hrun|exact Hkeys].
Defined.

Lemma many_files_result_bytes :
  payload_bytes (process_files_chunk ascii_lower lorem_files many_files
                   ["lorem"]) = 70895%N.
Proof. vm_compute. reflexivity. Qed.

Lemma many_files_one_chunk : make_chunks many_files 1 = Return [many_files].
Proof. vm_compute. reflexivity. Qed.

(** C1. The two execution models are not equivalent on every input. Take
    three thousand readable files that contain "lorem", the keyword
    "lorem" and one worker, on a platform whose pipe holds at most 65536
    bytes and on which the pickled result of that worker, whose strings
    are all different, is at least as long as the strings in it. Under
    "threading" [run_analysis] returns a mapping. Under "multiprocessing"
    no run in which the worker publishes ever ends: the result of the
    worker does not fit in the pipe, the process cannot exit, and
    [run_analysis] joins it before it reads from the queue. *)
Theorem multiprocessing_join_blocks (pipe_capacity : N)
    (message_size : dict → N) :
  (pipe_capacity ≤ 65536)%N →
  (payload_bytes (process_files_chunk ascii_lower lorem_files many_files
                    ["lorem"])
     ≤ message_size (process_files_chunk ascii_lower lorem_files many_files
                       ["lorem"]))%N →
  (∃ r, run_analysis_backend ascii_lower lorem_files pipe_capacity message_size
          many_files ["lorem"] 1 "threading" (in_order_trace 1) (Return r)) ∧
  (∀ trace outcome,
     Crashed ∉ trace →
     ¬ run_analysis_backend ascii_lower lorem_files pipe_capacity message_size
         many_files ["lorem"] 1 "multiprocessing" trace outcome).
Proof.
  intros Hcap Hsize. split.
  - eexists. eapply run_analysis_backend_in_order;
      [by left|exact many_files_one_chunk|done].
  - intros trace outcome Hfree Hrun.
    pose proof (multiprocessing_needs_room _ _ _ _ _ _ _ _ _ _
                  many_files_one_chunk Hfree Hrun) as Hroom.
    rewrite map_cons, pipe_load_cons in Hroom.
    pose proof Hsize as Hbytes.
    rewrite many_files_result_bytes in Hbytes.
    assert (0 ≤ pipe_load message_size
                  (map (λ c, process_files_chunk ascii_lower lorem_files c
                               ["lorem"]) []))%N by apply N.le_0_l.
    lia.
Qed.

Lemma multiprocessing_join_blocks_witness :
  ((65536 ≤ 65536)%N ∧
   (payload_bytes (process_files_chunk ascii_lower lorem_files many_files
                     ["lorem"])
      ≤ payload_bytes (process_files_chunk ascii_lower lorem_files many_files
                         ["lorem"]))%N) ∧
  (∃ r, run_analysis_backend ascii_lower lorem_files 65536 payload_bytes
          many_files ["lorem"] 1 "threading" (in_order_trace 1) (Return r)) ∧
  (∀ trace outcome,
     Crashed ∉ trace →
     ¬ run_analysis_backend ascii_lower lorem_files 65536 payload_bytes
         many_files ["lorem"] 1 "multiprocessing" trace outcome).
Proof.
  split; [split; reflexivity|].
  apply (multiprocessing_join_blocks 65536 payload_bytes); reflexivity.
Defined.
